(** * Rate laws and linear invariants of the four-state protein model

  A shallow embedding of [examples/protein_binding_unfolding_4state_model.ipynb]:
  the two rate-law callbacks [_gibbs] and [_eyring], the helper
  [Se0_from_Tm], the reaction network [rsys] the notebook builds, and the
  reduction of its system of ODEs by the linear invariants of mass
  conservation.

  Python numbers are modelled by an abstract numeric backend with three
  instances: symbolic expression trees; binary64 floats with the failures
  of Python's [math] module, the numbers of the code; and exact real
  numbers, the mathematical reading of the formulas, which has no rounding
  and no overflow. *)

From Stdlib Require Import List String Ascii ZArith QArith Reals Lra Lia Bool.
From Stdlib Require Import Floats Permutation.
Import ListNotations.

Set Implicit Arguments.
Set Warnings "-inexact-float".
Open Scope string_scope.
Open Scope list_scope.

(** * Part I: the embedding *)

(** ** Exceptions and fallible computations *)

(** Python's exceptions, and the two failures of the reaction network: a
    network that does not pass its checks, and an elimination that the
    chosen species do not allow. *)
Inductive exn : Type :=
| ZeroDivisionError
| OverflowError
| ValueError (msg : string)
| KeyError (key : string)
| MalformedNetwork
| SingularElimination.

Inductive result (A : Type) : Type :=
| Ok (a : A)
| Raise (e : exn).

Arguments Ok {A} a.
Arguments Raise {A} e.

Definition bind {A B : Type} (c : result A) (k : A -> result B) : result B :=
  match c with
  | Ok a => k a
  | Raise e => Raise e
  end.

Declare Scope py_scope.
Delimit Scope py_scope with py.
Notation "x <- c ;; k" := (bind c (fun x => k))
  (at level 61, c at next level, right associativity) : py_scope.
Notation "' p <- c ;; k" := (bind c (fun x => let 'p := x in k))
  (at level 61, p pattern, c at next level, right associativity) : py_scope.
Open Scope py_scope.

(** ** The numeric backend

    [_gibbs] and [_eyring] only use the operators [+ - * /], unary minus and
    the functions [exp] and [log] of the [backend] argument.  Each of them
    may raise. *)

Record Backend : Type := {
  num : Type;
  of_Z : Z -> num;
  add : num -> num -> result num;
  sub : num -> num -> result num;
  mul : num -> num -> result num;
  truediv : num -> num -> result num;
  neg : num -> result num;
  bexp : num -> result num;
  blog : num -> result num
}.

(** Symbolic expressions, the values of the symbolic backend. *)
Inductive expr : Type :=
| Sym (s : string)
| Num (z : Z)
| Add (a b : expr)
| Sub (a b : expr)
| Mul (a b : expr)
| Div (a b : expr)
| Neg (a : expr)
| Exp (a : expr)
| Log (a : expr).

(** The symbolic backend: every operation builds the expression. *)
Definition sym_backend : Backend := {|
  num := expr;
  of_Z := Num;
  add := fun a b => Ok (Add a b);
  sub := fun a b => Ok (Sub a b);
  mul := fun a b => Ok (Mul a b);
  truediv := fun a b => Ok (Div a b);
  neg := fun a => Ok (Neg a);
  bexp := fun a => Ok (Exp a);
  blog := fun a => Ok (Log a)
|}.

Definition math_domain_error : exn := ValueError "math domain error".

(** The formulas over the exact real numbers, their mathematical reading:
    [/] raises on a zero divisor and [log] on a non-positive argument, and
    nothing is rounded.  These are not the floats of the code, for which see
    [float_backend]. *)
Definition math_backend : Backend := {|
  num := R;
  of_Z := IZR;
  add := fun a b => Ok (a + b)%R;
  sub := fun a b => Ok (a - b)%R;
  mul := fun a b => Ok (a * b)%R;
  truediv := fun a b =>
    if Req_dec_T b 0 then Raise ZeroDivisionError else Ok (a / b)%R;
  neg := fun a => Ok (- a)%R;
  bexp := fun a => Ok (exp a);
  blog := fun a =>
    if Rlt_dec 0 a then Ok (ln a) else Raise math_domain_error
|}.

(** Evaluation of an expression in a backend, operands left to right:
    substitution of values for the symbols. *)
Fixpoint eval (B : Backend) (env : string -> num B) (e : expr) : result (num B) :=
  match e with
  | Sym s => Ok (env s)
  | Num z => Ok (of_Z B z)
  | Add a b => x <- eval B env a ;; y <- eval B env b ;; add B x y
  | Sub a b => x <- eval B env a ;; y <- eval B env b ;; sub B x y
  | Mul a b => x <- eval B env a ;; y <- eval B env b ;; mul B x y
  | Div a b => x <- eval B env a ;; y <- eval B env b ;; truediv B x y
  | Neg a => x <- eval B env a ;; neg B x
  | Exp a => x <- eval B env a ;; bexp B x
  | Log a => x <- eval B env a ;; blog B x
  end.

(** ** The rate-law callbacks *)

Section RateModel.

Variable B : Backend.

Definition unpack4 (args : list (num B)) : result (num B * num B * num B * num B) :=
  match args with
  | [a; b; c; d] => Ok (a, b, c, d)
  | _ => Raise (ValueError "unpack")
  end.

Definition unpack2 (args : list (num B)) : result (num B * num B) :=
  match args with
  | [a; b] => Ok (a, b)
  | _ => Raise (ValueError "unpack")
  end.

(** [def _gibbs(args, T, R, backend, **kwargs)]; the entropy [S] of the
    source is written [S_], [S] being the successor of [nat]. *)
Definition _gibbs (args : list (num B)) (T R : num B) : result (num B) :=
  '(H, S_, Cp, Tref) <- unpack4 args ;;
  dT <- sub B T Tref ;;
  CpdT <- mul B Cp dT ;;
  H2 <- add B H CpdT ;;
  q <- truediv B T Tref ;;
  l <- blog B q ;;
  Cpl <- mul B Cp l ;;
  S2 <- add B S_ Cpl ;;
  TS2 <- mul B T S2 ;;
  G <- sub B H2 TS2 ;;
  mG <- neg B G ;;
  RT <- mul B R T ;;
  x <- truediv B mG RT ;;
  bexp B x.

(** [def _eyring(args, T, R, k_B, h, backend, **kwargs)] *)
Definition _eyring (args : list (num B)) (T R k_B h : num B) : result (num B) :=
  '(H, S_) <- unpack2 args ;;
  kh <- truediv B k_B h ;;
  khT <- mul B kh T ;;
  TS <- mul B T S_ ;;
  G <- sub B H TS ;;
  mG <- neg B G ;;
  RT <- mul B R T ;;
  x <- truediv B mG RT ;;
  e <- bexp B x ;;
  mul B khT e.

End RateModel.

(** Parameter mappings: an association list in the order of the entries,
    with a value for the names that are absent. *)
Fixpoint env_of (A : Type) (l : list (string * A)) (d : A) (s : string) : A :=
  match l with
  | [] => d
  | (k, v) :: l' => if String.eqb s k then v else env_of l' d s
  end.

(** The formulas as the specification writes them, as expression trees over
    the parameter names. *)
Definition gibbs_equilibrium_formula : expr :=
  let H2 := Add (Sym "H") (Mul (Sym "Cp") (Sub (Sym "T") (Sym "Tref"))) in
  let S2 := Add (Sym "S") (Mul (Sym "Cp") (Log (Div (Sym "T") (Sym "Tref")))) in
  Exp (Div (Neg (Sub H2 (Mul (Sym "T") S2))) (Mul (Sym "R") (Sym "T"))).

Definition eyring_rate_formula : expr :=
  Mul (Mul (Div (Sym "k_B") (Sym "h")) (Sym "T"))
      (Exp (Div (Neg (Sub (Sym "H") (Mul (Sym "T") (Sym "S"))))
                (Mul (Sym "R") (Sym "T")))).

(** ** The entropy at the reference state from the melting temperature *)

(** [params[key]] on the notebook's dictionary of parameters. *)
Fixpoint getitem (A : Type) (params : list (string * A)) (key : string) : result A :=
  match params with
  | [] => Raise (KeyError key)
  | (k, v) :: params' => if String.eqb key k then Ok v else getitem params' key
  end.

(** [def Se0_from_Tm(Tm, token)], with the global [params] as an argument,
    over the exact real numbers. *)
Definition Se0_from_Tm (params : list (string * R)) (Tm : R) (token : string)
  : result R :=
  let M := math_backend in
  dH0 <- getitem params ("He_" ++ token) ;;
  T0 <- getitem params ("Tref_" ++ token) ;;
  dCp <- getitem params ("Cp_" ++ token) ;;
  a <- truediv M dH0 Tm ;;
  d <- sub M Tm T0 ;;
  dc <- mul M d dCp ;;
  b <- truediv M dc Tm ;;
  ab <- add M a b ;;
  q <- truediv M Tm T0 ;;
  l <- blog M q ;;
  c <- mul M dCp l ;;
  sub M ab c.

(** The notebook's dictionary of parameters, before [params['Se_u']] is set. *)
Definition params : list (string * R) :=
  [("R", 8.314472); ("k_B", 1.3806504e-23); ("h", 6.62606896e-34);
   ("He_dis", -45e3); ("Se_dis", -400); ("Cp_dis", 1.78e3);
   ("Tref_dis", 298.15); ("He_u", 60e3); ("Cp_u", 20.5e3); ("Tref_u", 298.15);
   ("Ha_agg", 106e3); ("Sa_agg", 70); ("Ha_as", 4e3); ("Sa_as", -10);
   ("Ha_f", 90e3); ("Sa_f", 50); ("temperature", 50 + 273.15)]%R.

(** The parameters as an environment; a name that is absent reads 0. *)
Definition params_env : string -> R := env_of params 0%R.

(** ** Substances, reactions and the reaction system *)

(** [d.get(key, 0)] on a dictionary of counts. *)
Fixpoint get (d : list (string * nat)) (key : string) : nat :=
  match d with
  | [] => 0%nat
  | (k, v) :: d' => if String.eqb key k then v else get d' key
  end.

Definition keys (A : Type) (d : list (string * A)) : list string := map fst d.

Definition mem (x : string) (l : list string) : bool :=
  existsb (String.eqb x) l.

Fixpoint nodup_keys (l : list string) : bool :=
  match l with
  | [] => true
  | x :: l' => negb (mem x l') && nodup_keys l'
  end.

(** Modelled from the spec: the data model of chempy, whose classes are not
    part of the notebook.  A substance has a name, a composition (the count
    of every component) and a name for LaTeX. *)
Module Substance.
Record t : Type := mk {
  name : string;
  composition : list (string * nat);
  latex_name : string
}.
End Substance.

(** The rate law a reaction refers to: an instance of [Gibbs] or [Eyring]
    bound to its unique keys, or the product of two of them (the forward
    rate of an equilibrium, from its constant and the backward rate). *)
Inductive RateLaw : Type :=
| Gibbs (unique_keys : list string)
| Eyring (unique_keys : list string)
| RateProduct (a b : RateLaw).

(** Modelled from the spec: a reaction has reactants and products with
    their counts, a rate law, spectator species on either side and a name,
    in the order of the arguments of [Reaction(...)]. *)
Module Reaction.
Record t : Type := mk {
  reac : list (string * nat);
  prod : list (string * nat);
  param : RateLaw;
  inact_reac : list (string * nat);
  inact_prod : list (string * nat);
  name : string
}.
End Reaction.

(** Modelled from the spec: a reaction system is a sequence of reactions
    and an ordered dictionary of substances. *)
Module ReactionSystem.
Record t : Type := mk {
  rxns : list Reaction.t;
  substances : list (string * Substance.t);
  name : string
}.
End ReactionSystem.

(** The notebook's five substances, an ordered dictionary. *)
Definition substances : list (string * Substance.t) :=
  [("N", Substance.mk "N" [("protein", 1%nat)] "[N]");
   ("U", Substance.mk "U" [("protein", 1%nat)] "[U]");
   ("A", Substance.mk "A" [("protein", 1%nat)] "[A]");
   ("L", Substance.mk "L" [("ligand", 1%nat)] "[L]");
   ("NL", Substance.mk "NL" [("protein", 1%nat); ("ligand", 1%nat)] "[NL]")].

Definition thermo_dis : RateLaw := Gibbs ["He_dis"; "Se_dis"; "Cp_dis"; "Tref_dis"].
Definition thermo_u : RateLaw := Gibbs ["He_u"; "Se_u"; "Cp_u"; "Tref_u"].
Definition kinetics_agg : RateLaw := Eyring ["Ha_agg"; "Sa_agg"].
Definition kinetics_as : RateLaw := Eyring ["Ha_as"; "Sa_as"].
Definition kinetics_f : RateLaw := Eyring ["Ha_f"; "Sa_f"].

(** A Python set of names as a dictionary of unit counts. *)
Definition of_set (names : list string) : list (string * nat) :=
  map (fun k => (k, 1%nat)) names.

(** Modelled from the spec: [Equilibrium(...).as_reactions(kb=..., new_name=...)]
    of the chempy package, which is not part of the notebook.  A reversible
    equilibrium with constant [K] gives two reactions of the network: the
    forward one under the equilibrium's name, with the rate coefficient
    [kb * K] that makes the pair honor the equilibrium, and the backward one
    under [new_name], with the rate coefficient [kb]; the spectator species
    stay unchanged on both sides. *)
Definition as_reactions (reac prod : list string) (K : RateLaw)
  (inact_reac inact_prod : list string) (name : string)
  (kb : RateLaw) (new_name : string) : list Reaction.t :=
  [Reaction.mk (of_set reac) (of_set prod) (RateProduct kb K)
               (of_set inact_reac) (of_set inact_prod) name;
   Reaction.mk (of_set prod) (of_set reac) kb
               (of_set inact_prod) (of_set inact_reac) new_name].

Definition r_agg : Reaction.t :=
  Reaction.mk (of_set ["U"]) (of_set ["A"]) kinetics_agg
              (of_set ["L"]) (of_set ["L"]) "protein aggregation".

Definition rsys : ReactionSystem.t :=
  ReactionSystem.mk
    (as_reactions ["NL"] ["N"; "L"] thermo_dis [] [] "ligand-protein dissociation"
                  kinetics_as "ligand-protein association"
     ++ as_reactions ["N"] ["U"] thermo_u ["L"] ["L"] "protein unfolding"
                     kinetics_f "protein folding"
     ++ [r_agg])
    substances "4-state CETSA system".

(** ** Composition matrix and stoichiometry *)

Section Composition.

Variable rs : ReactionSystem.t.

Definition substance_names : list string := keys (ReactionSystem.substances rs).

(** Insertion of a key in a sorted list without duplicates. *)
Fixpoint insert_key (k : string) (l : list string) : list string :=
  match l with
  | [] => [k]
  | x :: l' =>
      if String.eqb k x then l
      else if String.ltb k x then k :: l
      else x :: insert_key k l'
  end.

(** The sorted set of the component names of all substances. *)
Definition composition_keys : list string :=
  fold_left (fun acc s => fold_left (fun acc' k => insert_key k acc')
                                    (keys (Substance.composition (snd s))) acc)
            (ReactionSystem.substances rs) [].

(** The count of component [k] in a substance of the network. *)
Definition entry (k : string) (s : string * Substance.t) : Z :=
  Z.of_nat (get (Substance.composition (snd s)) k).

(** Modelled from the spec: [ReactionSystem.composition_balance_vectors]
    of the chempy package, which is not part of the notebook.  The
    composition matrix has one row per component and one column per
    substance, in the order of the network; it is returned with the list
    of the component names. *)
Definition composition_balance_vectors : list (list Z) * list string :=
  (map (fun k => map (entry k) (ReactionSystem.substances rs)) composition_keys,
   composition_keys).

(** Modelled from the spec: the stoichiometric change vector of a reaction
    over the substances of the network, products minus reactants,
    spectators included. *)
Definition net_stoich (r : Reaction.t) : list Z :=
  map (fun k => (Z.of_nat (get (Reaction.prod r) k)
                 + Z.of_nat (get (Reaction.inact_prod r) k)
                 - Z.of_nat (get (Reaction.reac r) k)
                 - Z.of_nat (get (Reaction.inact_reac r) k))%Z)
      substance_names.

End Composition.

(** Vectors and matrices of integers as lists. *)
Definition Zsum (l : list Z) : Z := fold_right Z.add 0%Z l.

Definition dot (u v : list Z) : Z :=
  Zsum (map (fun p => (fst p * snd p)%Z) (combine u v)).

(** The row vector [v . M]: the sum of the rows of [M] scaled by the entries
    of [v], a vector of the width [n] of [M]. *)
Fixpoint vecmat (n : nat) (v : list Z) (M : list (list Z)) : list Z :=
  match v, M with
  | x :: v', row :: M' =>
      map (fun p => (x * fst p + snd p)%Z) (combine row (vecmat n v' M'))
  | _, _ => repeat 0%Z n
  end.

Definition transpose (n : nat) (M : list (list Z)) : list (list Z) :=
  map (fun j => map (fun row => nth j row 0%Z) M) (seq 0 n).

Section Checks.

Variable rs : ReactionSystem.t.

Fixpoint lookup (subs : list (string * Substance.t)) (key : string)
  : option Substance.t :=
  match subs with
  | [] => None
  | (k, s) :: subs' => if String.eqb key k then Some s else lookup subs' key
  end.

(** The count of component [k] in the substance named [sp]. *)
Definition component_count (sp k : string) : nat :=
  match lookup (ReactionSystem.substances rs) sp with
  | Some s => get (Substance.composition s) k
  | None => 0%nat
  end.

(** The amount of component [k] on one side of a reaction. *)
Definition side_composition (side : list (string * nat)) (k : string) : Z :=
  Zsum (map (fun e => (Z.of_nat (snd e) * Z.of_nat (component_count (fst e) k))%Z)
            side).

Definition reactants (r : Reaction.t) : list (string * nat) :=
  Reaction.reac r ++ Reaction.inact_reac r.

Definition products (r : Reaction.t) : list (string * nat) :=
  Reaction.prod r ++ Reaction.inact_prod r.

(** Modelled from the spec: the balance check of the reaction system, which
    is chempy code outside the notebook.  A reaction is balanced when the
    composition of its reactant side equals that of its product side, for
    every component. *)
Definition balanced (r : Reaction.t) : bool :=
  forallb (fun k => Z.eqb (side_composition (reactants r) k)
                          (side_composition (products r) k))
          (composition_keys rs).

Definition known_species (r : Reaction.t) : bool :=
  forallb (fun k => mem k (substance_names rs))
          (keys (reactants r) ++ keys (products r)).

Definition proper_dicts (r : Reaction.t) : bool :=
  nodup_keys (keys (Reaction.reac r)) && nodup_keys (keys (Reaction.prod r))
  && nodup_keys (keys (Reaction.inact_reac r))
  && nodup_keys (keys (Reaction.inact_prod r)).

(** Modelled from the spec: the checks made when a reaction system is
    built.  The keys of every dictionary are distinct, every species of a
    reaction is a substance of the network, every reaction is balanced. *)
Definition check : bool :=
  nodup_keys (substance_names rs)
  && forallb (fun r => proper_dicts r && known_species r && balanced r)
             (ReactionSystem.rxns rs).

End Checks.

(** Modelled from the spec: the constructor [ReactionSystem(rxns, substances,
    name)] of chempy, which fails on a network that does not pass the
    checks. *)
Definition make_ReactionSystem (rxns : list Reaction.t)
  (substances : list (string * Substance.t)) (name : string)
  : result ReactionSystem.t :=
  let rs := ReactionSystem.mk rxns substances name in
  if check rs then Ok rs else Raise MalformedNetwork.

(** The stoichiometry matrix: one row per substance, one column per
    reaction. *)
Definition stoichiometry_matrix (rs : ReactionSystem.t) : list (list Z) :=
  transpose (List.length (substance_names rs))
            (map (net_stoich rs) (ReactionSystem.rxns rs)).

(** ** Rank and null-spaces *)

Definition hd0 (r : list Z) : Z := hd 0%Z r.

(** The first row with a non-zero leading entry, and the other rows. *)
Fixpoint take_pivot (M : list (list Z)) : option (list Z * list (list Z)) :=
  match M with
  | [] => None
  | r :: M' =>
      if Z.eqb (hd0 r) 0 then
        match take_pivot M' with
        | Some (p, rest) => Some (p, r :: rest)
        | None => None
        end
      else Some (r, M')
  end.

(** Elimination of the leading column of [r] by the pivot row [p], without
    fractions; the leading column is dropped. *)
Definition reduce_row (p r : list Z) : list Z :=
  map (fun q => (hd0 p * fst q - hd0 r * snd q)%Z) (combine (tl r) (tl p)).

(** Gaussian elimination on a matrix of [n] columns: the number of pivots. *)
Fixpoint rank_aux (n : nat) (M : list (list Z)) : nat :=
  match n with
  | O => O
  | S n' =>
      match take_pivot M with
      | None => rank_aux n' (map (@tl Z) M)
      | Some (p, rest) => S (rank_aux n' (map (reduce_row p) rest))
      end
  end.

Definition width (M : list (list Z)) : nat :=
  fold_right Nat.max O (map (@List.length Z) M).

Definition rank (M : list (list Z)) : nat := rank_aux (width M) M.

(** [v] is in the left null-space of [M], a matrix of [n] columns. *)
Definition left_null_space (n : nat) (M : list (list Z)) (v : list Z) : Prop :=
  List.length v = List.length M /\ vecmat n v M = repeat 0%Z n.

(** The composition matrix of the data model. *)
Definition composition_matrix (rs : ReactionSystem.t) : list (list Z) :=
  fst (composition_balance_vectors rs).

(** The notebook's view of the invariants,
    [dict(zip(comp, [dict(zip(names, v)) for v in vecs]))]: for every
    component, the coefficient of every substance. *)
Definition linear_invariants (rs : ReactionSystem.t)
  : list (string * list (string * Z)) :=
  let (vecs, comp) := composition_balance_vectors rs in
  combine comp (map (fun v => combine (substance_names rs) v) vecs).

(** The coefficient vectors of the invariants. *)
Definition invariant_vectors (rs : ReactionSystem.t) : list (list Z) :=
  map (fun inv => map snd (snd inv)) (linear_invariants rs).

(** ** Elimination of species by the linear invariants *)

Definition Qrow : Type := list Q.

Definition is_zero (q : Q) : bool := Z.eqb (Qnum q) 0.

Definition coeff (j : nat) (r : Qrow) : Q := nth j r 0%Q.

Definition row_scale (c : Q) (r : Qrow) : Qrow :=
  map (fun x => Qred (c * x)) r.

(** [r - c * p] *)
Definition row_sub (c : Q) (p r : Qrow) : Qrow :=
  map (fun q => Qred (fst q - c * snd q)) (combine r p).

(** The first pending row with a non-zero entry in column [j]. *)
Fixpoint take_row (j : nat) (pending : list Qrow) : option (Qrow * list Qrow) :=
  match pending with
  | [] => None
  | r :: pending' =>
      if is_zero (coeff j r) then
        match take_row j pending' with
        | Some (p, rest) => Some (p, r :: rest)
        | None => None
        end
      else Some (r, pending')
  end.

(** The state of the elimination: the rows solved for a species, with its
    name and column, and the rows still pending. *)
Definition elimination : Type := list (string * nat * Qrow) * list Qrow.

(** One step: a pending invariant is solved for the species of column [j],
    which is then removed from every other row.  It fails when no pending
    invariant involves the species. *)
Definition eliminate (name : string) (j : nat) (st : elimination)
  : result elimination :=
  let (solved, pending) := st in
  match take_row j pending with
  | None => Raise SingularElimination
  | Some (p, rest) =>
      let p' := row_scale (/ coeff j p) p in
      let clear := fun r => row_sub (coeff j r) p' r in
      Ok (map (fun e => (fst e, clear (snd e))) solved ++ [(name, j, p')],
          map clear rest)
  end.

Fixpoint index (names : list string) (x : string) : result nat :=
  match names with
  | [] => Raise (ValueError "not in list")
  | n :: names' =>
      if String.eqb x n then Ok O else i <- index names' x ;; Ok (S i)
  end.

Fixpoint eliminate_all (names preferred : list string) (st : elimination)
  : result elimination :=
  match preferred with
  | [] => Ok st
  | x :: preferred' =>
      j <- index names x ;;
      st' <- eliminate x j st ;;
      eliminate_all names preferred' st'
  end.

(** Modelled from the spec: the elimination of section 4.2, step 3, that
    chempy's [get_odesys] performs outside the notebook.  For the species
    chosen for elimination, in their order, the invariants (the rows of the
    composition matrix) are solved by exact rational elimination; the chosen
    species must have an invertible block of coefficients, otherwise the
    derivation fails. *)
Definition linear_dependencies (rs : ReactionSystem.t) (preferred : list string)
  : result (list (string * nat * Qrow)) :=
  st <- eliminate_all (substance_names rs) preferred
                      ([], map (map inject_Z) (composition_matrix rs)) ;;
  Ok (fst st).

(** A rational coefficient as an expression. *)
Definition qexpr (q : Q) : expr :=
  match Qden q with
  | xH => Num (Qnum q)
  | d => Div (Num (Qnum q)) (Num (Zpos d))
  end.

(** The linear combination of [f name] over the names, with the non-zero
    coefficients of the row, leaving out column [skip]. *)
Fixpoint linear_form (f : string -> expr) (skip : option nat) (j : nat)
  (names : list string) (row : Qrow) : expr :=
  match names, row with
  | n :: names', q :: row' =>
      let rest := linear_form f skip (S j) names' row' in
      let skipped := match skip with Some i => Nat.eqb i j | None => false end in
      if is_zero q || skipped then rest
      else Add (Mul (qexpr q) (f n)) rest
  | _, _ => Num 0
  end.

(** Modelled from the spec: the expressions that the callback returns when
    it is called as [analytic(x0, y0, p0, backend)] with a symbolic backend.
    Each eliminated species is the value of its invariant at the initial
    concentrations [init] minus the contributions of the other species. *)
Definition analytic_factory (names : list string)
  (deps : list (string * nat * Qrow)) (init : string -> expr)
  : list (string * expr) :=
  map (fun d =>
         let '(name, j, row) := d in
         (name, Sub (linear_form init None 0 names row)
                    (linear_form Sym (Some j) 0 names row)))
      deps.

(** The initial concentrations as symbols, [Symbol(k + '0')]. *)
Definition y0 (k : string) : expr := Sym (k ++ "0").

(** Modelled from the spec: the result of a derivation as a value, from
    which the reduced systems are built: the solved rows, from which the
    expressions are produced for any initial concentrations.  The callback
    as a Python object, with the list it holds, is [Closure] below. *)
Record Callback : Type := {
  cb_names : list string;
  cb_deps : list (string * nat * Qrow)
}.

Definition derive (rs : ReactionSystem.t) (preferred : list string)
  : result Callback :=
  deps <- linear_dependencies rs preferred ;;
  Ok {| cb_names := substance_names rs; cb_deps := deps |}.

(** The expressions of a derivation for the initial concentrations [init]. *)
Definition call (cb : Callback) (init : string -> expr) : list (string * expr) :=
  analytic_factory (cb_names cb) (cb_deps cb) init.

(** The derivation behind
    [analytic_L_N = extra['linear_dependencies'](['L', 'N'])]. *)
Definition analytic_L_N : result Callback := derive rsys ["L"; "N"].

(** ** The system of ODEs and its reduction *)

(** Modelled from the spec: a rate-law instance binds the callback to its
    unique keys and to the shared parameters it was declared with; its rate
    coefficient is the callback on the symbols of these names.
    [Gibbs = EqExpr.from_callback(_gibbs, parameter_keys=('temperature', 'R'), ...)],
    [Eyring = MassAction.from_callback(_eyring,
       parameter_keys=('temperature', 'R', 'k_B', 'h'), ...)]. *)
Fixpoint rate_coefficient (p : RateLaw) : result expr :=
  match p with
  | Gibbs unique_keys =>
      _gibbs sym_backend (map Sym unique_keys) (Sym "temperature") (Sym "R")
  | Eyring unique_keys =>
      _eyring sym_backend (map Sym unique_keys) (Sym "temperature") (Sym "R")
              (Sym "k_B") (Sym "h")
  | RateProduct a b =>
      x <- rate_coefficient a ;; y <- rate_coefficient b ;; Ok (Mul x y)
  end.

Fixpoint power (e : expr) (n : nat) : expr :=
  match n with
  | O => Num 1
  | S n' => Mul e (power e n')
  end.

(** Modelled from the spec: the law of mass action, from chempy.  The rate of
    a reaction is its rate coefficient times the concentrations of its
    reactants, spectators left out. *)
Definition rate_expr (r : Reaction.t) : result expr :=
  k <- rate_coefficient (Reaction.param r) ;;
  Ok (fold_left (fun acc e => Mul acc (power (Sym (fst e)) (snd e)))
                (Reaction.reac r) k).

Fixpoint rate_exprs (rxns : list Reaction.t) : result (list expr) :=
  match rxns with
  | [] => Ok []
  | r :: rxns' => e <- rate_expr r ;; es <- rate_exprs rxns' ;; Ok (e :: es)
  end.

(** A symbolic system of ODEs: the names of the dependent variables and the
    derivative of each of them. *)
Record SymbolicSys : Type := {
  names : list string;
  exprs : list expr
}.

(** The sum of the rates weighted by the stoichiometric change of one
    species. *)
Fixpoint weighted_sum (ws : list Z) (rates : list expr) : expr :=
  match ws, rates with
  | w :: ws', e :: rates' =>
      if Z.eqb w 0 then weighted_sum ws' rates'
      else Add (Mul (Num w) e) (weighted_sum ws' rates')
  | _, _ => Num 0
  end.

(** Modelled from the spec: [get_odesys] of chempy, which is not part of the
    notebook.  The derivative of every concentration is assembled from the
    reaction rates and the stoichiometry. *)
Definition get_odesys (rs : ReactionSystem.t) : result SymbolicSys :=
  rates <- rate_exprs (ReactionSystem.rxns rs) ;;
  Ok {| names := substance_names rs;
        exprs := map (fun row => weighted_sum row rates) (stoichiometry_matrix rs) |}.

(** The expression a substitution has for a symbol. *)
Fixpoint lookup_expr (sigma : list (string * expr)) (s : string) : option expr :=
  match sigma with
  | [] => None
  | (k, e) :: sigma' => if String.eqb s k then Some e else lookup_expr sigma' s
  end.

(** Substitution of expressions for symbols, sympy's [subs]. *)
Fixpoint subs (sigma : list (string * expr)) (e : expr) : expr :=
  match e with
  | Sym s => match lookup_expr sigma s with Some e' => e' | None => Sym s end
  | Num z => Num z
  | Add a b => Add (subs sigma a) (subs sigma b)
  | Sub a b => Sub (subs sigma a) (subs sigma b)
  | Mul a b => Mul (subs sigma a) (subs sigma b)
  | Div a b => Div (subs sigma a) (subs sigma b)
  | Neg a => Neg (subs sigma a)
  | Exp a => Exp (subs sigma a)
  | Log a => Log (subs sigma a)
  end.

(** Modelled from the spec: [PartiallySolvedSystem] of the pyodesys package.
    The eliminated species are the keys of the analytic expressions; the
    free species keep their order, and their derivatives are those of the
    full system with the analytic expressions substituted. *)
Record PartiallySolvedSystem : Type := {
  free_names : list string;
  free_exprs : list expr;
  analytic_exprs : list (string * expr)
}.

Definition partially_solved (sys : SymbolicSys) (analytic : list (string * expr))
  : PartiallySolvedSystem :=
  let free := filter (fun p => negb (mem (fst p) (keys analytic)))
                     (combine (names sys) (exprs sys)) in
  {| free_names := map fst free;
     free_exprs := map (fun p => subs analytic (snd p)) free;
     analytic_exprs := analytic |}.

(** Symbolic derivative with respect to the symbol [x], sympy's [diff]. *)
Fixpoint diff (x : string) (e : expr) : expr :=
  match e with
  | Sym s => if String.eqb s x then Num 1 else Num 0
  | Num _ => Num 0
  | Add a b => Add (diff x a) (diff x b)
  | Sub a b => Sub (diff x a) (diff x b)
  | Mul a b => Add (Mul (diff x a) b) (Mul a (diff x b))
  | Div a b => Div (Sub (Mul (diff x a) b) (Mul a (diff x b))) (Mul b b)
  | Neg a => Neg (diff x a)
  | Exp a => Mul (Exp a) (diff x a)
  | Log a => Div (diff x a) a
  end.

(** The Jacobian of the derivatives with respect to the variables. *)
Definition jacobian (vars : list string) (fs : list expr) : list (list expr) :=
  map (fun f => map (fun x => diff x f) vars) fs.

Definition get_jac (sys : PartiallySolvedSystem) : list (list expr) :=
  jacobian (free_names sys) (free_exprs sys).

(** The value of an expression in the reals. *)
Fixpoint denote (env : string -> R) (e : expr) : R :=
  match e with
  | Sym s => env s
  | Num z => IZR z
  | Add a b => denote env a + denote env b
  | Sub a b => denote env a - denote env b
  | Mul a b => denote env a * denote env b
  | Div a b => denote env a / denote env b
  | Neg a => - denote env a
  | Exp a => exp (denote env a)
  | Log a => ln (denote env a)
  end%R.

(** The environment [env] with the value [t] for the symbol [x]. *)
Definition update (env : string -> R) (x : string) (t : R) : string -> R :=
  fun s => if String.eqb s x then t else env s.

(** An expression is defined where no divisor is zero and every logarithm
    has a positive argument. *)
Fixpoint defined (env : string -> R) (e : expr) : Prop :=
  match e with
  | Sym _ | Num _ => True
  | Add a b | Sub a b | Mul a b => defined env a /\ defined env b
  | Div a b => defined env a /\ defined env b /\ denote env b <> 0%R
  | Neg a | Exp a => defined env a
  | Log a => defined env a /\ (0 < denote env a)%R
  end.

(** Determinant of a square matrix of size [n], by expansion along the first
    row. *)
Fixpoint drop_at (A : Type) (j : nat) (l : list A) : list A :=
  match l, j with
  | [], _ => []
  | _ :: l', O => l'
  | x :: l', S j' => x :: drop_at j' l'
  end.

Fixpoint expand (det : list (list R) -> R) (sign : R) (j : nat) (row : list R)
  (rest : list (list R)) : R :=
  match row with
  | [] => 0
  | x :: row' =>
      sign * x * det (map (drop_at j) rest) + expand det (- sign) (S j) row' rest
  end%R.

Fixpoint det (n : nat) (M : list (list R)) : R :=
  match n, M with
  | S n', row :: rest => expand (det n') 1%R O row rest
  | _, _ => 1%R
  end.

(** Modelled from the spec: the reduced system of the notebook, the full
    system with the species [preferred] eliminated. *)
Definition reduced_system (rs : ReactionSystem.t) (preferred : list string)
  : result PartiallySolvedSystem :=
  odesys <- get_odesys rs ;;
  cb <- derive rs preferred ;;
  Ok (partially_solved odesys (call cb y0)).

Definition analytic_L_A_callback : Callback :=
  Eval vm_compute in
    match derive rsys ["L"; "A"] with
    | Ok cb => cb
    | Raise _ => {| cb_names := []; cb_deps := [] |}
    end.

(** [odesys, extra = get_odesys(rsys, ...)] *)
Definition odesys : result SymbolicSys := get_odesys rsys.

Definition odesys_value : SymbolicSys :=
  Eval vm_compute in
    match odesys with
    | Ok sys => sys
    | Raise _ => {| names := []; exprs := [] |}
    end.

Definition analytic_L_N_callback : Callback :=
  Eval vm_compute in
    match analytic_L_N with
    | Ok cb => cb
    | Raise _ => {| cb_names := []; cb_deps := [] |}
    end.

(** ** The reduced systems of the notebook *)

Definition psysLN : result PartiallySolvedSystem := reduced_system rsys ["L"; "N"].
Definition psysLA : result PartiallySolvedSystem := reduced_system rsys ["L"; "A"].

Definition empty_system : PartiallySolvedSystem :=
  {| free_names := []; free_exprs := []; analytic_exprs := [] |}.

Definition psysLN_value : PartiallySolvedSystem :=
  Eval vm_compute in match psysLN with Ok s => s | Raise _ => empty_system end.

Definition psysLA_value : PartiallySolvedSystem :=
  Eval vm_compute in match psysLA with Ok s => s | Raise _ => empty_system end.

Definition psysLN_jac : list (list expr) := Eval vm_compute in get_jac psysLN_value.
Definition psysLA_jac : list (list expr) := Eval vm_compute in get_jac psysLA_value.

(** The value of a rate coefficient. *)
Definition rate_value (env : string -> R) (p : RateLaw) : R :=
  match rate_coefficient p with
  | Ok e => denote env e
  | Raise _ => 0%R
  end.

(** The concentration of a species in a state of a reduced system: the
    value of its analytic expression when it is eliminated. *)
Definition concentration (sys : PartiallySolvedSystem) (env : string -> R)
  (s : string) : R :=
  match lookup_expr (analytic_exprs sys) s with
  | Some e => denote env e
  | None => env s
  end.

Definition nonnegative_state (sys : PartiallySolvedSystem) (env : string -> R) : Prop :=
  Forall (fun s => (0 <= concentration sys env s)%R)
         (free_names sys ++ keys (analytic_exprs sys)).

Definition jacobian_value (env : string -> R) (J : list (list expr)) : R :=
  det (List.length J) (map (map (denote env)) J).

(** [default_c0 = defaultdict(float, {'N': 1e-9, 'L': 1e-8})] *)
Definition default_c0 : list (string * R) := [("N", 1e-9); ("L", 1e-8)]%R.

(** The initial state of the notebook: its parameters, the concentrations
    [default_c0] and the same values for the symbols of the initial
    concentrations; every other concentration is 0. *)
Definition initial_state : string -> R :=
  env_of (params ++ default_c0 ++ [("N0", 1e-9); ("L0", 1e-8)])%R 0%R.

(** A state is on the manifold of a reduced system when every eliminated
    species has the concentration its analytic expression gives. *)
Definition on_manifold (sys : PartiallySolvedSystem) (env : string -> R) : Prop :=
  Forall (fun p => env (fst p) = denote env (snd p)) (analytic_exprs sys).

(** The value of an invariant in a state: the sum of the concentrations of
    the symbols [name ++ suffix] weighted by its coefficients. *)
Definition invariant_value (env : string -> R) (suffix : string)
  (inv : list (string * Z)) : R :=
  fold_right (fun p acc => (IZR (snd p) * env (fst p ++ suffix)%string + acc)%R) 0%R inv.

(** The invariants have the value they had at the initial concentrations. *)
Definition invariants_conserved (rs : ReactionSystem.t) (env : string -> R) : Prop :=
  Forall (fun inv => invariant_value env "" (snd inv) = invariant_value env "0" (snd inv))
         (linear_invariants rs).

(** ** The callbacks as functions of the temperature *)

(** The number [_gibbs] returns on real inputs, read as a function of its
    arguments; where the call raises the value is 0. *)
Definition gibbs_value (H S_ Cp Tref T Rg : R) : R :=
  match _gibbs math_backend [H; S_; Cp; Tref] T Rg with
  | Ok K => K
  | Raise _ => 0%R
  end.

(** The values of the symbols of [gibbs_equilibrium_formula] other than the
    temperature. *)
Definition gibbs_env (H S_ Cp Tref Rg : R) : string -> R :=
  env_of [("H", H); ("S", S_); ("Cp", Cp); ("Tref", Tref); ("R", Rg)] 0%R.

(** The first of the keys [ks] that the dictionary [d] does not hold. *)
Definition first_missing (A : Type) (d : list (string * A)) (ks : list string)
  : option string :=
  find (fun k => negb (mem k (keys d))) ks.

(** ** The shifted logarithmic transformation *)

(** [logexp = lambda x: sympy.log(x + 1e-20), lambda x: sympy.exp(x) - 1e-20]:
    the pair of the forward and the backward transformation of the
    concentrations, with the shift as an argument; the notebook's functions
    are those of the symbolic backend. *)
Definition logexp (B : Backend) (eps : num B)
  : (num B -> result (num B)) * (num B -> result (num B)) :=
  (fun x => s <- add B x eps ;; blog B s,
   fun x => e <- bexp B x ;; sub B e eps).

(** ** Strings: [str.replace] *)

(** [strip_prefix p s] is the rest of [s] behind its prefix [p]. *)
Fixpoint strip_prefix (p s : string) : option string :=
  match p with
  | EmptyString => Some s
  | String a p' =>
      match s with
      | String b s' => if Ascii.eqb a b then strip_prefix p' s' else None
      | EmptyString => None
      end
  end.

(** Python's [s.replace('', new)]: [new] before every character and at the
    end. *)
Fixpoint interleave (new s : string) : string :=
  match s with
  | EmptyString => new
  | String c s' => (new ++ String c (interleave new s'))%string
  end.

(** A scan of [s] from the left that replaces the occurrences of [old]
    which do not overlap an earlier one; [skip] counts the characters of the
    last occurrence still to pass. *)
Fixpoint replace_from (skip : nat) (old new s : string) : string :=
  match s with
  | EmptyString => EmptyString
  | String c s' =>
      match skip with
      | S k => replace_from k old new s'
      | O =>
          match strip_prefix old s with
          | Some _ => (new ++ replace_from (String.length old - 1) old new s')%string
          | None => String c (replace_from 0 old new s')
          end
      end
  end.

(** Python's [s.replace(old, new)]. *)
Definition replace (old new s : string) : string :=
  match old with
  | EmptyString => interleave new s
  | _ => replace_from 0 old new s
  end.

(** [rnames[rxn.name] = rxn.name.replace(' ', '~').replace('-','-')]: the
    name under which a reaction is typeset. *)
Definition rname (name : string) : string :=
  replace "-" "-" (replace " " "~" name).

(** Every character [a] of a string exchanged for [b]. *)
Fixpoint translate (a b : ascii) (s : string) : string :=
  match s with
  | EmptyString => EmptyString
  | String c s' => String (if Ascii.eqb c a then b else c) (translate a b s')
  end.

Fixpoint all_chars (P : ascii -> bool) (s : string) : bool :=
  match s with
  | EmptyString => true
  | String c s' => P c && all_chars P s'
  end.

Fixpoint drop (k : nat) (s : string) : string :=
  match k, s with
  | S k', String _ s' => drop k' s'
  | _, _ => s
  end.

(** ** Strings: [re.sub] and the names of the symbols *)

Section Regex.

(** Strings are sequences of bytes.  The class [\w] of Python's [re] holds
    the ASCII letters, the digits and the underscore; which of the
    characters above 127 belong to it is left open. *)
Variable word_high : ascii -> bool.

Definition is_word (c : ascii) : bool :=
  let n := nat_of_ascii c in
  if (n <? 128)%nat then
    ((48 <=? n) && (n <=? 57) || (65 <=? n) && (n <=? 90)
     || (97 <=? n) && (n <=? 122) || (n =? 95))%nat
  else word_high c.

(** The longest prefix of word characters: what the greedy [\w+] matches,
    when it is not empty. *)
Fixpoint take_word (s : string) : string :=
  match s with
  | EmptyString => EmptyString
  | String c s' => if is_word c then String c (take_word s') else EmptyString
  end.

(** A replacement template is a sequence of characters and of references
    to the first group. *)
Inductive piece : Type :=
| Lit (c : ascii)
| Group1.

Definition is_digit (c : ascii) : bool :=
  let n := nat_of_ascii c in ((48 <=? n) && (n <=? 57))%nat.

Definition is_ascii_letter (c : ascii) : bool :=
  let n := nat_of_ascii c in
  ((65 <=? n) && (n <=? 90) || (97 <=? n) && (n <=? 122))%nat.

(** The template of [re.sub]: a doubled backslash is one backslash, a
    backslash and [1] is the first group, a backslash before any other
    character that is neither a letter nor a digit is kept with that
    character.  The result is [None] for the templates [re] rejects (a
    backslash at the end, a reference to a group the pattern does not have)
    and for the escapes left out here (letters, other digits). *)
Fixpoint parse_template (t : string) : option (list piece) :=
  match t with
  | EmptyString => Some []
  | String c t1 =>
      if Ascii.eqb c "\"%char then
        match t1 with
        | EmptyString => None
        | String e t2 =>
            if Ascii.eqb e "\"%char then
              option_map (cons (Lit "\"%char)) (parse_template t2)
            else if Ascii.eqb e "1"%char then
              match t2 with
              | String d _ => if is_digit d then None
                              else option_map (cons Group1) (parse_template t2)
              | EmptyString => Some [Group1]
              end
            else if is_digit e || is_ascii_letter e then None
            else option_map (fun l => Lit "\"%char :: Lit e :: l) (parse_template t2)
        end
      else option_map (cons (Lit c)) (parse_template t1)
  end.

Fixpoint expand_template (t : list piece) (g : string) : string :=
  match t with
  | [] => EmptyString
  | Lit c :: t' => String c (expand_template t' g)
  | Group1 :: t' => (g ++ expand_template t' g)%string
  end.

(** [re.sub] for a pattern [lit(\w+)]: a scan from the left; where [lit] is
    followed by a word character, [lit] and the longest run of word
    characters behind it are replaced by the expanded template and the scan
    goes on behind them. *)
Fixpoint re_sub_from (skip : nat) (lit : string) (t : list piece) (s : string)
  : string :=
  match s with
  | EmptyString => EmptyString
  | String c s' =>
      match skip with
      | S k => re_sub_from k lit t s'
      | O =>
          match strip_prefix lit s with
          | Some rest =>
              match take_word rest with
              | EmptyString => String c (re_sub_from 0 lit t s')
              | g => (expand_template t g
                      ++ re_sub_from (String.length lit + String.length g - 1)
                           lit t s')%string
              end
          | None => String c (re_sub_from 0 lit t s')
          end
      end
  end.

Definition re_sub (lit tmpl s : string) : option string :=
  option_map (fun t => re_sub_from 0 lit t s) (parse_template tmpl).

(** The default substitutions of [pretty_replace], each pattern
    [lit(\w+)] given by [lit], in the order of the dictionary. *)
Definition default_subs : list (string * string) :=
  [("Ha_", "\\Delta_{\1}H^{\\neq}");
   ("Sa_", "\\Delta_{\1}S^{\\neq}");
   ("He_", "\\Delta_{\1}H^\\circ");
   ("Se_", "\\Delta_{\1}S^\\circ");
   ("Cp_", "\\Delta_{\1}\,C_p");
   ("Tref_", "T^{\\circ}_{\1}")].

(** [for pattern, repl in subs.items(): s = re.sub(pattern, repl, s)]. *)
Fixpoint pretty_replace_loop (subs : list (string * string)) (s : string)
  : option string :=
  match subs with
  | [] => Some s
  | (lit, tmpl) :: subs' =>
      match re_sub lit tmpl s with
      | Some s' => pretty_replace_loop subs' s'
      | None => None
      end
  end.

(** [def pretty_replace(s, subs=None)]. *)
Definition pretty_replace (s : string) (subs : option (list (string * string)))
  : option string :=
  pretty_replace_loop (match subs with None => default_subs | Some d => d end) s.

(** [def mk_Symbol(key)], with the global [substances] as an argument; a
    symbol is the expression [Sym] of its name. *)
Definition mk_Symbol (substances : list (string * Substance.t)) (key : string)
  : option expr :=
  match lookup substances key with
  | Some s => Some (Sym (Substance.latex_name s))
  | None => option_map Sym (pretty_replace (replace "temperature" "T" key) None)
  end.

End Regex.

(** [lit] followed by a word character at the start of [s], and somewhere
    in [s]. *)
Definition matches_at (word_high : ascii -> bool) (lit s : string) : bool :=
  match strip_prefix lit s with
  | Some rest =>
      match take_word word_high rest with
      | EmptyString => false
      | _ => true
      end
  | None => false
  end.

Fixpoint has_match (word_high : ascii -> bool) (lit s : string) : bool :=
  match s with
  | EmptyString => false
  | String _ s' => matches_at word_high lit s || has_match word_high lit s'
  end.

Definition no_underscore (s : string) : bool :=
  all_chars (fun c => negb (Ascii.eqb c "_")) s.

Definition avoids (c : ascii) (s : string) : bool :=
  all_chars (fun x => negb (Ascii.eqb x c)) s.

(** Strings of ASCII characters only: no character above 127 is a word
    character. *)
Definition ascii_word : ascii -> bool := fun _ => false.

(** ** The call of the integrator *)

(** The values of the keyword arguments. *)
Inductive kwval : Type :=
| KFloat (x : R)
| KInt (n : Z)
| KBool (b : bool)
| KStr (s : string).

(** [d[key] = v] on a dictionary that keeps the order of insertion. *)
Fixpoint setitem (A : Type) (d : list (string * A)) (key : string) (v : A)
  : list (string * A) :=
  match d with
  | [] => [(key, v)]
  | (k, x) :: d' =>
      if String.eqb key k then (k, v) :: d' else (k, x) :: setitem d' key v
  end.

(** [d.get(key, default)]. *)
Definition dict_get (A : Type) (d : list (string * A)) (key : string) (default : A)
  : A :=
  match getitem d key with
  | Ok v => v
  | Raise _ => default
  end.

(** The arguments [system.integrate] is called with: the two times, the
    initial concentrations, the parameters and the keywords. *)
Record integrate_args : Type := {
  ia_x : list R;
  ia_y0 : list (string * R);
  ia_params : list (string * R);
  ia_keywords : list (string * kwval)
}.

(** A call is made, or Python raises [TypeError] for a keyword that is
    given twice. *)
Inductive call_result (A : Type) : Type :=
| Called (a : A)
| TypeError (keyword : string).

Arguments TypeError {A} keyword.

(** [f(..., k1=v1, ..., **kwargs)]: the first key of [kwargs] that is also
    given explicitly makes the call fail. *)
Definition call_keywords (explicit kwargs : list (string * kwval))
  : call_result (list (string * kwval)) :=
  match find (fun k => mem k (keys explicit)) (keys kwargs) with
  | Some k => TypeError k
  | None => Called (explicit ++ kwargs)
  end.

(** [def integrate_and_plot(system, c0=None, first_step=None, t0=0,
    stiffness=False, nsteps=9000, **kwargs)] up to its call of
    [system.integrate], with the global [h0max] as an argument:
    [[
    if c0 is None: c0 = default_c0
    if first_step is None: first_step = h0max*1e-11
    tend = 3600*24
    kwargs['atol'] = kwargs.get('atol', 1e-11)
    kwargs['rtol'] = kwargs.get('rtol', 1e-11)
    res = system.integrate([t0, tend], c0, params, integrator='cvode',
                           nsteps=nsteps, first_step=first_step, **kwargs)
    ]] *)
Definition integrate_and_plot_call (h0max : R) (c0 : option (list (string * R)))
  (first_step : option R) (t0 : R) (nsteps : Z) (kwargs : list (string * kwval))
  : call_result integrate_args :=
  let c0 := match c0 with None => default_c0 | Some c => c end in
  let first_step :=
    match first_step with None => (h0max * 1e-11)%R | Some h => h end in
  let tend := (3600 * 24)%R in
  let kwargs := setitem kwargs "atol" (dict_get kwargs "atol" (KFloat 1e-11)) in
  let kwargs := setitem kwargs "rtol" (dict_get kwargs "rtol" (KFloat 1e-11)) in
  match call_keywords [("integrator", KStr "cvode"); ("nsteps", KInt nsteps);
                       ("first_step", KFloat first_step)] kwargs with
  | Called kw => Called {| ia_x := [t0; tend]; ia_y0 := c0; ia_params := params;
                           ia_keywords := kw |}
  | TypeError k => TypeError k
  end.

(** The keywords that [integrate_and_plot] gives explicitly. *)
Definition reserved : list string := ["integrator"; "nsteps"; "first_step"].

(** ** Python floats

    A Python float is a binary64 number, here Rocq's primitive [float]: the
    operators [+ - *] and unary minus are those of IEEE 754 and never raise,
    [/] raises on a zero divisor of either sign.  A decimal literal is the
    nearest binary64 number, in Python as in Rocq.  [math.exp] and
    [math.log] call the functions [exp] and [log] of the C library, whose
    rounding Python does not fix: they are the two fields of [Libm]. *)

Record Libm : Type := {
  c_exp : float -> float;
  c_log : float -> float
}.

(** [float(z)] for an integer, rounded to the nearest float. *)
Definition float_of_Z (z : Z) : float :=
  SF2Prim (binary_normalize prec emax z 0 false).

(** [a / b] on floats. *)
Definition float_truediv (a b : float) : result float :=
  if (b =? 0)%float then Raise ZeroDivisionError else Ok (a / b)%float.

(** [math.exp(x)], as CPython's [math_1] calls the C library: a result that
    is not a number for an argument that is one is a ValueError, an infinite
    result for a finite argument an OverflowError; an underflow to zero is
    returned. *)
Definition math_exp (m : Libm) (x : float) : result float :=
  let r := c_exp m x in
  if is_nan r && negb (is_nan x) then Raise math_domain_error
  else if is_infinity r && is_finite x then Raise OverflowError
  else Ok r.

(** CPython's [m_log]: the C library is called for the finite positive
    arguments only. *)
Definition m_log (m : Libm) (x : float) : float :=
  if is_finite x then
    if (0 <? x)%float then c_log m x
    else if (x =? 0)%float then neg_infinity
    else nan
  else if is_nan x then x
  else if (0 <? x)%float then x
  else nan.

(** [math.log(x)]: [math_1] on [m_log], where an infinite result for a
    finite argument is a ValueError as well. *)
Definition math_log (m : Libm) (x : float) : result float :=
  let r := m_log m x in
  if is_nan r && negb (is_nan x) then Raise math_domain_error
  else if is_infinity r && is_finite x then Raise math_domain_error
  else Ok r.

(** The numeric backend of the notebook: Python floats with the [math]
    module, over a C library [m]. *)
Definition float_backend (m : Libm) : Backend := {|
  num := float;
  of_Z := float_of_Z;
  add := fun a b => Ok (a + b)%float;
  sub := fun a b => Ok (a - b)%float;
  mul := fun a b => Ok (a * b)%float;
  truediv := float_truediv;
  neg := fun a => Ok (- a)%float;
  bexp := math_exp m;
  blog := math_log m
|}.

(** *** A C library

    Where a value is computed, [exp] and [log] are evaluated in fixed point
    with [fx_bits] fractional bits, by the series of the exponential and of
    the inverse hyperbolic tangent, and rounded to the nearest float. *)

Definition fx_bits : Z := 200.

Fixpoint atanh_sum (fuel : nat) (s2 term k acc : Z) : Z :=
  match fuel with
  | O => acc
  | S fuel' =>
      atanh_sum fuel' s2 (Z.shiftr (term * s2) fx_bits) (k + 2) (acc + term / k)%Z
  end.

(** [atanh s] for [|s| <= 1/3]. *)
Definition fx_atanh (s : Z) : Z :=
  atanh_sum 70 (Z.shiftr (s * s) fx_bits) s 1 0.

(** [ln 2 = 2 atanh (1/3)] *)
Definition fx_ln2 : Z :=
  Eval vm_compute in (2 * fx_atanh (Z.shiftl 1 fx_bits / 3))%Z.

(** [ln (m 2^e) = (e + d) ln 2 + 2 atanh ((x - 1)/(x + 1))] with
    [x = m / 2^d] in [[1, 2)]. *)
Definition fx_log (m : positive) (e : Z) : Z :=
  let d := Z.log2 (Zpos m) in
  let one := Z.shiftl 1 d in
  let s := (Z.shiftl (Zpos m - one) fx_bits / (Zpos m + one))%Z in
  ((e + d) * fx_ln2 + 2 * fx_atanh s)%Z.

Fixpoint exp_sum (fuel : nat) (r term k acc : Z) : Z :=
  match fuel with
  | O => acc
  | S fuel' =>
      exp_sum fuel' r (Z.shiftr (term * r) fx_bits / k)%Z (k + 1)%Z (acc + term)%Z
  end.

(** [exp r] for [0 <= r < ln 2]. *)
Definition fx_exp (r : Z) : Z := exp_sum 70 r (Z.shiftl 1 fx_bits) 1 0.

(** The float nearest to [v 2^e]. *)
Definition round_fx (v e : Z) : float :=
  SF2Prim (binary_normalize prec emax v e false).

Definition libm_log (x : float) : float :=
  match Prim2SF x with
  | S754_finite false m e => round_fx (fx_log m e) (- fx_bits)
  | S754_finite true _ _ => nan
  | S754_zero _ => neg_infinity
  | S754_infinity false => infinity
  | S754_infinity true => nan
  | S754_nan => nan
  end.

Definition libm_exp (x : float) : float :=
  match Prim2SF x with
  | S754_zero _ => one
  | S754_infinity false => infinity
  | S754_infinity true => zero
  | S754_nan => nan
  | S754_finite s m e =>
      if (710 <? x)%float then infinity
      else if (x <? -746)%float then zero
      else
        let y := ((if s then -1 else 1) * Z.shiftl (Zpos m) (e + fx_bits))%Z in
        let k := (y / fx_ln2)%Z in
        round_fx (fx_exp (y - k * fx_ln2)) (k - fx_bits)
  end.

Definition libm : Libm := {| c_exp := libm_exp; c_log := libm_log |}.

(** *** The notebook's numbers *)

(** [def Se0_from_Tm(Tm, token)] over a backend; the notebook's is that of
    the floats, and [Se0_from_Tm] above is this function over the reals. *)
Definition Se0_from_Tm_in (B : Backend) (params : list (string * num B)) (Tm : num B)
  (token : string) : result (num B) :=
  dH0 <- getitem params ("He_" ++ token) ;;
  T0 <- getitem params ("Tref_" ++ token) ;;
  dCp <- getitem params ("Cp_" ++ token) ;;
  a <- truediv B dH0 Tm ;;
  d <- sub B Tm T0 ;;
  dc <- mul B d dCp ;;
  b <- truediv B dc Tm ;;
  ab <- add B a b ;;
  q <- truediv B Tm T0 ;;
  l <- blog B q ;;
  c <- mul B dCp l ;;
  sub B ab c.

(** The notebook's dictionary of parameters, as floats. *)
Definition float_params : list (string * float) :=
  [("R", 8.314472); ("k_B", 1.3806504e-23); ("h", 6.62606896e-34);
   ("He_dis", -45e3); ("Se_dis", -400); ("Cp_dis", 1.78e3);
   ("Tref_dis", 298.15); ("He_u", 60e3); ("Cp_u", 20.5e3); ("Tref_u", 298.15);
   ("Ha_agg", 106e3); ("Sa_agg", 70); ("Ha_as", 4e3); ("Sa_as", -10);
   ("Ha_f", 90e3); ("Sa_f", 50); ("temperature", 50 + 273.15)]%float.

(** *** Signs *)

(** The sign of a float that is a number. *)
Definition has_sign (s : bool) (x : spec_float) : Prop :=
  match x with
  | S754_zero s' | S754_infinity s' | S754_finite s' _ _ => s' = s
  | S754_nan => False
  end.

(** A float that is zero or negative. *)
Definition nonpositive (x : spec_float) : Prop :=
  match x with
  | S754_zero _ => True
  | S754_infinity s | S754_finite s _ _ => s = true
  | S754_nan => False
  end.

(** [T <= 0 < Tref] or [Tref < 0 <= T], and not both infinite: the inputs
    whose quotient [T/Tref] is zero or negative. *)
Definition nonpositive_quotient (T Tref : float) : bool :=
  ((T <=? 0) && (0 <? Tref) || (0 <=? T) && (Tref <? 0))%float
  && negb (is_infinity T && is_infinity Tref).

(** ** The callback as a Python closure

    The callback [analytic_L_N] is an object that the notebook calls several
    times and then hands to [PartiallySolvedSystem]; it holds the list
    [preferred] it was made from.  Python lists are objects of a heap. *)

Definition loc : Type := nat.

Definition heap : Type := list (list string).

(** A computation on the heap that returns or raises. *)
Definition Py (A : Type) : Type := heap -> result A * heap.

Definition ret (A : Type) (a : A) : Py A := fun h => (Ok a, h).

Definition raise (A : Type) (e : exn) : Py A := fun h => (Raise e, h).

Definition hbind (A B : Type) (c : Py A) (k : A -> Py B) : Py B :=
  fun h =>
    match c h with
    | (Ok a, h') => k a h'
    | (Raise e, h') => (Raise e, h')
    end.

Notation "x <~ c ;; k" := (hbind c (fun x => k))
  (at level 61, c at next level, right associativity) : py_scope.

Fixpoint set_nth (A : Type) (n : nat) (v : A) (l : list A) {struct l} : list A :=
  match l, n with
  | [], _ => []
  | _ :: l', O => v :: l'
  | x :: l', S n' => x :: set_nth n' v l'
  end.

(** A new list object. *)
Definition new_list (l : list string) : Py loc :=
  fun h => (Ok (List.length h), h ++ [l]).

Definition read_list (p : loc) : Py (list string) :=
  fun h => (Ok (nth p h []), h).

Definition write_list (p : loc) (l : list string) : Py unit :=
  fun h => (Ok tt, set_nth p l h).

Fixpoint remove_first (x : string) (l : list string) : list string :=
  match l with
  | [] => []
  | y :: l' => if String.eqb x y then l' else y :: remove_first x l'
  end.

(** [list(p)] *)
Definition list_copy (p : loc) : Py loc := l <~ read_list p ;; new_list l.

(** [x in p] *)
Definition list_contains (p : loc) (x : string) : Py bool :=
  l <~ read_list p ;; ret (mem x l).

(** [p.remove(x)] *)
Definition list_remove (p : loc) (x : string) : Py unit :=
  l <~ read_list p ;;
  if mem x l then write_list p (remove_first x l)
  else raise unit (ValueError "list.remove(x): x not in list").

(** [len(p)] *)
Definition list_len (p : loc) : Py nat := l <~ read_list p ;; ret (List.length l).

(** Modelled from the spec: sympy's [Matrix.rref], the reduced row echelon
    form with the columns of its pivots, by exact rational elimination. *)
Fixpoint rref_columns (cols : list nat) (done pending : list Qrow) (pivots : list nat)
  : list Qrow * list nat :=
  match cols with
  | [] => (done ++ pending, pivots)
  | j :: cols' =>
      match take_row j pending with
      | None => rref_columns cols' done pending pivots
      | Some (p, rest) =>
          let p' := row_scale (/ coeff j p) p in
          let clear := fun r => row_sub (coeff j r) p' r in
          rref_columns cols' (map clear done ++ [p']) (map clear rest) (pivots ++ [j])
      end
  end.

Definition rref (ncols : nat) (A : list Qrow) : list Qrow * list nat :=
  rref_columns (seq 0 ncols) [] A [].

(** Modelled from the spec: the callback that [extra['linear_dependencies']]
    of chempy's [get_odesys] returns, which is outside the notebook: a
    closure over the reaction system and over the list [preferred], of which
    it holds the object, not a copy. *)
Record Closure : Type := {
  cl_rsys : ReactionSystem.t;
  cl_preferred : option loc
}.

(** Modelled from the spec: in a row of the echelon form, from its pivot on,
    the first species with a non-zero coefficient that is still in the
    working list; it is removed from that list. *)
Fixpoint choose_key (working : option loc) (entries : list (nat * string * Q))
  : Py (option (nat * string)) :=
  match entries with
  | [] => ret None
  | (idx, key, c) :: entries' =>
      if is_zero c then choose_key working entries'
      else
        match working with
        | None => ret (Some (idx, key))
        | Some w =>
            b <~ list_contains w key ;;
            if b then (_ <~ list_remove w key ;; ret (Some (idx, key)))
            else choose_key working entries'
        end
  end.

(** Modelled from the spec: one species is solved for in every row of the
    echelon form that has one to offer. *)
Fixpoint solve_rows (working : option loc) (names : list string)
  (rows : list (Qrow * nat)) (deps : list (string * (nat * Qrow)))
  : Py (list (string * (nat * Qrow))) :=
  match rows with
  | [] => ret deps
  | (row, ci1st) :: rows' =>
      c <~ choose_key working
             (skipn ci1st (combine (combine (seq 0 (List.length names)) names) row)) ;;
      match c with
      | Some (idx, key) =>
          solve_rows working names rows'
            (setitem deps key (idx, row_scale (/ coeff idx row) row))
      | None => solve_rows working names rows' deps
      end
  end.

(** Modelled from the spec: every expression, from the last to the first,
    with the other expressions substituted for the eliminated species. *)
Definition back_substitute (exprs : list (string * expr)) : list (string * expr) :=
  fold_left (fun d k =>
               match lookup_expr d k with
               | Some e => setitem d k (subs d e)
               | None => d
               end)
            (rev (keys exprs)) exprs.

Definition render (names : list string) (deps : list (string * (nat * Qrow)))
  (init : string -> expr) : list (string * expr) :=
  back_substitute
    (analytic_factory names (map (fun d => (fst d, fst (snd d), snd (snd d))) deps) init).

(** Modelled from the spec: a call [analytic(x0, y0, p0, backend)] of the
    callback.  It works on a copy of the list [preferred], from which it
    removes every species it has solved for, and raises when a species of
    the list is left. *)
Definition closure_call (cl : Closure) (init : string -> expr)
  : Py (list (string * expr)) :=
  working <~ match cl_preferred cl with
             | None => ret None
             | Some p => (w <~ list_copy p ;; ret (Some w))
             end ;;
  let names := substance_names (cl_rsys cl) in
  let (rA, pivots) :=
    rref (List.length names) (map (map inject_Z) (composition_matrix (cl_rsys cl))) in
  deps <~ solve_rows working names (combine rA pivots) [] ;;
  let exprs := render names deps init in
  match working with
  | None => ret exprs
  | Some w =>
      n <~ list_len w ;;
      if (0 <? n)%nat
      then raise _ (ValueError "Failed to obtain analytic expression")
      else ret exprs
  end.

(** [extra['linear_dependencies'](preferred)] with a list that the call
    creates, as in [extra['linear_dependencies'](['L', 'N'])]. *)
Definition closure_linear_dependencies (rs : ReactionSystem.t) (preferred : list string)
  : Py Closure :=
  p <~ new_list preferred ;;
  ret {| cl_rsys := rs; cl_preferred := Some p |}.

(** *** What a call computes

    The loops of [closure_call] as functions of the content of the working
    list. *)

Fixpoint choose_pure (l : list string) (entries : list (nat * string * Q))
  : option (nat * string) * list string :=
  match entries with
  | [] => (None, l)
  | (idx, key, c) :: entries' =>
      if is_zero c then choose_pure l entries'
      else if mem key l then (Some (idx, key), remove_first key l)
      else choose_pure l entries'
  end.

Fixpoint solve_pure (l : list string) (names : list string)
  (rows : list (Qrow * nat)) (deps : list (string * (nat * Qrow)))
  : list (string * (nat * Qrow)) * list string :=
  match rows with
  | [] => (deps, l)
  | (row, ci1st) :: rows' =>
      match choose_pure l
              (skipn ci1st (combine (combine (seq 0 (List.length names)) names) row)) with
      | (Some (idx, key), l') =>
          solve_pure l' names rows'
            (setitem deps key (idx, row_scale (/ coeff idx row) row))
      | (None, l') => solve_pure l' names rows' deps
      end
  end.

Definition derived (rs : ReactionSystem.t) (preferred : list string)
  (init : string -> expr) : result (list (string * expr)) :=
  let names := substance_names rs in
  let (rA, pivots) :=
    rref (List.length names) (map (map inject_Z) (composition_matrix rs)) in
  let (deps, left) := solve_pure preferred names (combine rA pivots) [] in
  if (0 <? List.length left)%nat
  then Raise (ValueError "Failed to obtain analytic expression")
  else Ok (render names deps init).

(** The list object at [p] is allocated and holds [l]. *)
Definition holds (h : heap) (p : loc) (l : list string) : Prop :=
  (p < List.length h)%nat /\ nth p h [] = l.

(** The heaps [h] and [h'] differ at most in the object at [w]. *)
Definition frame (w : loc) (h h' : heap) : Prop :=
  List.length h' = List.length h /\ forall q, q <> w -> nth q h' [] = nth q h [].

(** * Part II: properties *)

(** ** Proof automation and the monad *)

Lemma bind_Ok {A B : Type} (a : A) (k : A -> result B) : bind (Ok a) k = k a.
Proof. reflexivity. Qed.

Lemma bind_Raise {A B : Type} (e : exn) (k : A -> result B) :
  bind (Raise e) k = Raise e.
Proof. reflexivity. Qed.

(** Case analysis on the first backend operation that is still to run. *)
Ltac run_backend :=
  repeat (cbn [bind eval env_of String.eqb Ascii.eqb Bool.eqb];
          try reflexivity;
          match goal with
          | |- context [bind ?c _] =>
              lazymatch c with
              | bind _ _ => fail
              | Ok _ => fail
              | Raise _ => fail
              | _ => destruct c
              end
          end).

(** ** Properties of the rate-law callbacks *)

(** C1: for all inputs H, S, Cp, Tref, T, R of any backend (numeric or
    symbolic), [_gibbs] returns exactly the backend's value of
    exp(-(H2 - T*S2)/(R*T)) with H2 = H + Cp*(T - Tref) and
    S2 = S + Cp*ln(T/Tref), failing exactly where that formula fails; on
    symbols it returns the formula itself.  The result is a function of the
    arguments alone: nothing else is read or written. *)
Theorem gibbs_returns_formula :
  (forall (B : Backend) (H S_ Cp Tref T R : num B),
      _gibbs B [H; S_; Cp; Tref] T R
      = eval B (env_of [("H", H); ("S", S_); ("Cp", Cp); ("Tref", Tref);
                        ("T", T); ("R", R)] (of_Z B 0))
             gibbs_equilibrium_formula)
  /\ _gibbs sym_backend [Sym "H"; Sym "S"; Sym "Cp"; Sym "Tref"] (Sym "T") (Sym "R")
     = Ok gibbs_equilibrium_formula.
Proof.
  split; [| reflexivity].
  intros B H S_ Cp Tref T R.
  unfold _gibbs, gibbs_equilibrium_formula, unpack4.
  run_backend.
Qed.

(** C2: for all inputs H, S, T, R, k_B, h of any backend, [_eyring] returns
    exactly the backend's value of k_B/h * T * exp(-(H - T*S)/(R*T)); on
    symbols it returns the formula itself. *)
Theorem eyring_returns_formula :
  (forall (B : Backend) (H S_ T R k_B h : num B),
      _eyring B [H; S_] T R k_B h
      = eval B (env_of [("H", H); ("S", S_); ("T", T); ("R", R);
                        ("k_B", k_B); ("h", h)] (of_Z B 0))
             eyring_rate_formula)
  /\ _eyring sym_backend [Sym "H"; Sym "S"] (Sym "T") (Sym "R") (Sym "k_B") (Sym "h")
     = Ok eyring_rate_formula.
Proof.
  split; [| reflexivity].
  intros B H S_ T R k_B h.
  unfold _eyring, eyring_rate_formula, unpack2.
  run_backend.
Qed.

(** C3: whatever values a backend gives to the symbols, running [_gibbs]
    (respectively [_eyring]) on symbolic inputs and then substituting the
    values gives the result of running it directly on the values: the one
    definition serves both modes. *)
Theorem symbolic_then_substitute_agrees
  (B : Backend) (env : string -> num B)
  (eH eS eCp eTref eT eR ek_B eh : expr)
  (H S_ Cp Tref T R k_B h : num B) :
  eval B env eH = Ok H -> eval B env eS = Ok S_ ->
  eval B env eCp = Ok Cp -> eval B env eTref = Ok Tref ->
  eval B env eT = Ok T -> eval B env eR = Ok R ->
  eval B env ek_B = Ok k_B -> eval B env eh = Ok h ->
  (e <- _gibbs sym_backend [eH; eS; eCp; eTref] eT eR ;; eval B env e)
  = _gibbs B [H; S_; Cp; Tref] T R
  /\ (e <- _eyring sym_backend [eH; eS] eT eR ek_B eh ;; eval B env e)
     = _eyring B [H; S_] T R k_B h.
Proof.
  intros HH HS HCp HTref HT HR Hk Hh.
  split.
  - unfold _gibbs, unpack4. cbn [bind sym_backend sub mul add truediv neg bexp blog eval].
    rewrite HH, HS, HCp, HTref, HT, HR. run_backend.
  - unfold _eyring, unpack2. cbn [bind sym_backend sub mul add truediv neg bexp blog eval].
    rewrite HH, HS, HT, HR, Hk, Hh. run_backend.
Qed.

Lemma symbolic_then_substitute_agrees_witness :
  (e <- _gibbs sym_backend [Sym "He_u"; Sym "Se_u"; Sym "Cp_u"; Sym "Tref_u"]
                           (Sym "temperature") (Sym "R") ;;
   eval math_backend params_env e)
  = _gibbs math_backend [60e3; 0; 20.5e3; 298.15]%R (50 + 273.15)%R 8.314472%R
  /\ (e <- _eyring sym_backend [Sym "He_u"; Sym "Se_u"] (Sym "temperature")
                               (Sym "R") (Sym "k_B") (Sym "h") ;;
      eval math_backend params_env e)
     = _eyring math_backend [60e3; 0]%R (50 + 273.15)%R 8.314472%R
               1.3806504e-23%R 6.62606896e-34%R.
Proof.
  apply (@symbolic_then_substitute_agrees math_backend params_env
           (Sym "He_u") (Sym "Se_u") (Sym "Cp_u") (Sym "Tref_u")
           (Sym "temperature") (Sym "R") (Sym "k_B") (Sym "h"));
    reflexivity.
Defined.

(** ** Domain of [_gibbs] on the real numbers *)

Lemma truediv_math (a b : R) :
  b <> 0%R -> truediv math_backend a b = Ok (a / b)%R.
Proof.
  intros Hb. cbn. destruct (Req_dec_T b 0) as [E | _]; [contradiction | reflexivity].
Qed.

Lemma truediv_math_zero (a : R) : truediv math_backend a 0%R = Raise ZeroDivisionError.
Proof.
  cbn. destruct (Req_dec_T 0 0) as [_ | N]; [reflexivity | now contradiction N].
Qed.

Lemma blog_math (a : R) : (0 < a)%R -> blog math_backend a = Ok (ln a).
Proof.
  intros Ha. cbn. destruct (Rlt_dec 0 a) as [_ | N]; [reflexivity | contradiction].
Qed.

Lemma blog_math_domain (a : R) :
  (a <= 0)%R -> blog math_backend a = Raise math_domain_error.
Proof.
  intros Ha. cbn. destruct (Rlt_dec 0 a) as [P | _]; [lra | reflexivity].
Qed.

(** The value of [_gibbs] on reals where every operation is defined. *)
Lemma gibbs_math_value (H S_ Cp Tref T R : R) :
  Tref <> 0%R -> (0 < T / Tref)%R -> (R * T <> 0)%R ->
  _gibbs math_backend [H; S_; Cp; Tref] T R
  = Ok (exp (- (H + Cp * (T - Tref) - T * (S_ + Cp * ln (T / Tref))) / (R * T)))%R.
Proof.
  intros HTref Hq HRT. unfold _gibbs, unpack4.
  cbn [bind add sub mul neg bexp math_backend].
  rewrite (truediv_math T HTref). cbn [bind].
  rewrite (blog_math Hq). cbn [bind].
  rewrite (@truediv_math _ (R * T)%R HRT). reflexivity.
Qed.

(** C4, as stated, fails: with T = -1 and Tref = -1 the quotient T/Tref is
    1, the logarithm is defined and a value is returned. *)
Lemma gibbs_negative_temperatures_return :
  _gibbs math_backend [0; 0; 0; -1]%R (-1)%R 1%R = Ok 1%R.
Proof.
  rewrite gibbs_math_value by lra.
  f_equal. etransitivity; [| apply exp_0]. f_equal. field.
Qed.

(** On symbols no operation fails: a symbolic temperature of -1 gives an
    expression, not a failure. *)
Lemma gibbs_symbolic_never_fails (H S_ Cp Tref T R : expr) :
  exists e, _gibbs sym_backend [H; S_; Cp; Tref] T R = Ok e.
Proof. eexists. reflexivity. Qed.

(** ** The melting temperature *)


(** ** The notebook's network *)

Example rsys_check : make_ReactionSystem (ReactionSystem.rxns rsys) substances
                       "4-state CETSA system" = Ok rsys.
Proof. reflexivity. Qed.

Example rsys_composition :
  composition_balance_vectors rsys
  = ([[0; 0; 0; 1; 1]; [1; 1; 1; 0; 1]]%Z, ["ligand"; "protein"]).
Proof. reflexivity. Qed.

Example rsys_net_stoich :
  map (net_stoich rsys) (ReactionSystem.rxns rsys)
  = [[1; 0; 0; 1; -1]; [-1; 0; 0; -1; 1]; [-1; 1; 0; 0; 0]; [1; -1; 0; 0; 0];
     [0; -1; 1; 0; 0]]%Z.
Proof. reflexivity. Qed.

(** ** Mass conservation: the rows of the composition matrix are invariants *)

Lemma Zsum_cons (x : Z) (l : list Z) : Zsum (x :: l) = (x + Zsum l)%Z.
Proof. reflexivity. Qed.

Lemma Zsum_app (l1 l2 : list Z) : Zsum (l1 ++ l2) = (Zsum l1 + Zsum l2)%Z.
Proof. unfold Zsum. induction l1 as [| x l1 IH]; cbn; [reflexivity | rewrite IH; ring]. Qed.

Lemma Zsum_map_add (A : Type) (f g : A -> Z) (l : list A) :
  Zsum (map (fun x => (f x + g x)%Z) l) = (Zsum (map f l) + Zsum (map g l))%Z.
Proof. unfold Zsum. induction l as [| x l IH]; cbn; [reflexivity | rewrite IH; ring]. Qed.

Lemma Zsum_map_sub (A : Type) (f g : A -> Z) (l : list A) :
  Zsum (map (fun x => (f x - g x)%Z) l) = (Zsum (map f l) - Zsum (map g l))%Z.
Proof. unfold Zsum. induction l as [| x l IH]; cbn; [reflexivity | rewrite IH; ring]. Qed.

Lemma Zsum_map_ext (A : Type) (f g : A -> Z) (l : list A) :
  (forall x, In x l -> f x = g x) -> Zsum (map f l) = Zsum (map g l).
Proof.
  intros E. f_equal. apply map_ext_in. exact E.
Qed.

Lemma dot_map (A : Type) (f : A -> Z) (g : A -> Z) (l : list A) :
  dot (map f l) (map g l) = Zsum (map (fun x => (f x * g x)%Z) l).
Proof.
  unfold dot. induction l as [| x l IH]; cbn; [reflexivity |].
  unfold Zsum in *. cbn. rewrite IH. reflexivity.
Qed.

Lemma mem_false_get (d : list (string * nat)) (k : string) :
  mem k (keys d) = false -> get d k = 0%nat.
Proof.
  induction d as [| [k' v] d IH]; cbn; [reflexivity |].
  intros H. apply orb_false_elim in H. destruct H as [Hk Hd].
  rewrite Hk. apply IH. exact Hd.
Qed.

Section Conservation.

Variable rs : ReactionSystem.t.
Variable k : string.

(** Over distinct names, only the substance named [k0] contributes. *)
Lemma sum_at_name (subs : list (string * Substance.t)) (k0 : string) (c : Z) :
  nodup_keys (keys subs) = true ->
  Zsum (map (fun s => (entry k s * (if String.eqb (fst s) k0 then c else 0))%Z) subs)
  = (c * match lookup subs k0 with
         | Some s => Z.of_nat (get (Substance.composition s) k)
         | None => 0
         end)%Z.
Proof.
  induction subs as [| [n s] subs IH]; intros Hnd.
  - cbn. ring.
  - cbn [keys map fst nodup_keys] in Hnd.
    apply andb_prop in Hnd. destruct Hnd as [Hn Hnd].
    rewrite map_cons, Zsum_cons, (IH Hnd).
    cbn [lookup fst]. rewrite (String.eqb_sym k0 n).
    destruct (String.eqb n k0) eqn:E.
    + apply String.eqb_eq in E. subst n.
      assert (Hnone : lookup subs k0 = None).
      { clear IH Hnd. apply negb_true_iff in Hn.
        induction subs as [| [n' s'] subs IH']; cbn in *; [reflexivity |].
        apply orb_false_elim in Hn. destruct Hn as [Hk Hd].
        rewrite Hk. apply IH'. exact Hd. }
      rewrite Hnone. unfold entry. cbn [snd]. ring.
    + ring.
Qed.

Lemma side_composition_app (d1 d2 : list (string * nat)) :
  side_composition rs (d1 ++ d2) k
  = (side_composition rs d1 k + side_composition rs d2 k)%Z.
Proof. unfold side_composition. rewrite map_app. apply Zsum_app. Qed.

(** The row of component [k] applied to the counts of a dictionary gives
    the amount of [k] on that side. *)
Lemma row_dot_counts (d : list (string * nat)) :
  nodup_keys (substance_names rs) = true ->
  nodup_keys (keys d) = true ->
  Zsum (map (fun s => (entry k s * Z.of_nat (get d (fst s)))%Z)
            (ReactionSystem.substances rs))
  = side_composition rs d k.
Proof.
  intros Hsubs. unfold substance_names in Hsubs.
  induction d as [| [k0 c] d IH]; intros Hd.
  - clear Hsubs Hd. unfold side_composition. cbn [map get].
    induction (ReactionSystem.substances rs) as [| s l IHl]; [reflexivity |].
    rewrite map_cons, Zsum_cons, IHl. cbn. ring.
  - cbn [keys map fst nodup_keys] in Hd.
    apply andb_prop in Hd. destruct Hd as [Hk0 Hd].
    apply negb_true_iff in Hk0.
    rewrite (@Zsum_map_ext _ _
               (fun s => (entry k s * (if String.eqb (fst s) k0 then Z.of_nat c else 0)
                          + entry k s * Z.of_nat (get d (fst s)))%Z)).
    + rewrite Zsum_map_add, (IH Hd), (@sum_at_name _ k0 (Z.of_nat c) Hsubs).
      unfold side_composition, component_count.
      rewrite map_cons, Zsum_cons. cbn [fst snd].
      destruct (lookup (ReactionSystem.substances rs) k0); ring.
    + intros s _. cbn [get]. destruct (String.eqb (fst s) k0) eqn:E.
      * apply String.eqb_eq in E. rewrite E, (mem_false_get _ _ Hk0). cbn. ring.
      * ring.
Qed.

(** For a balanced reaction, the row of component [k] annihilates the
    stoichiometric change vector. *)
Lemma row_annihilates_net_stoich (r : Reaction.t) :
  nodup_keys (substance_names rs) = true ->
  proper_dicts r = true ->
  side_composition rs (reactants r) k = side_composition rs (products r) k ->
  dot (map (entry k) (ReactionSystem.substances rs)) (net_stoich rs r) = 0%Z.
Proof.
  intros Hsubs Hd Hbal. unfold proper_dicts in Hd.
  repeat (apply andb_prop in Hd; destruct Hd as [Hd ?]).
  unfold net_stoich, substance_names, keys. rewrite map_map, dot_map.
  rewrite (@Zsum_map_ext _ _
    (fun s => (entry k s * Z.of_nat (get (Reaction.prod r) (fst s))
               + entry k s * Z.of_nat (get (Reaction.inact_prod r) (fst s))
               - entry k s * Z.of_nat (get (Reaction.reac r) (fst s))
               - entry k s * Z.of_nat (get (Reaction.inact_reac r) (fst s)))%Z))
    by (intros; ring).
  rewrite !Zsum_map_sub, Zsum_map_add, !row_dot_counts by assumption.
  unfold reactants, products in Hbal. rewrite !side_composition_app in Hbal.
  lia.
Qed.

End Conservation.

Example rsys_linear_invariants :
  linear_invariants rsys
  = [("ligand", [("N", 0); ("U", 0); ("A", 0); ("L", 1); ("NL", 1)]%Z);
     ("protein", [("N", 1); ("U", 1); ("A", 1); ("L", 0); ("NL", 1)]%Z)].
Proof. reflexivity. Qed.

Example rank_examples :
  rank [[1; 2]; [2; 4]]%Z = 1%nat /\ rank [[0; 1]; [1; 0]]%Z = 2%nat
  /\ rank [[1; 2; 3]; [4; 5; 6]; [7; 8; 9]]%Z = 2%nat /\ rank [[0; 0]]%Z = 0%nat.
Proof. repeat split. Qed.

(** ** Rank and invariants *)

Lemma take_pivot_length (M : list (list Z)) (p : list Z) (rest : list (list Z)) :
  take_pivot M = Some (p, rest) -> List.length M = S (List.length rest).
Proof.
  revert p rest. induction M as [| r M IH]; intros p rest; cbn; [discriminate |].
  destruct (Z.eqb (hd0 r) 0).
  - destruct (take_pivot M) as [[p' rest'] |]; [| discriminate].
    intros E. injection E as <- <-. cbn. f_equal. apply (IH p' rest'). reflexivity.
  - intros E. injection E as <- <-. reflexivity.
Qed.

(** The rank is at most the number of rows and the number of columns. *)
Lemma rank_aux_le (n : nat) (M : list (list Z)) :
  (rank_aux n M <= List.length M)%nat /\ (rank_aux n M <= n)%nat.
Proof.
  revert M. induction n as [| n IH]; intros M; cbn; [lia |].
  destruct (take_pivot M) as [[p rest] |] eqn:E.
  - apply take_pivot_length in E.
    destruct (IH (map (reduce_row p) rest)) as [H1 H2].
    rewrite length_map in H1. lia.
  - destruct (IH (map (@tl Z) M)) as [H1 H2]. rewrite length_map in H1. lia.
Qed.

Lemma combine_map_snd (A B : Type) (l1 : list A) (l2 : list B) :
  List.length l1 = List.length l2 -> map snd (combine l1 l2) = l2.
Proof.
  revert l2. induction l1 as [| a l1 IH]; intros [| b l2]; cbn; try discriminate.
  - reflexivity.
  - intros E. f_equal. apply IH. lia.
Qed.

(** The coefficient vectors of the invariants are the rows of the
    composition matrix. *)
Lemma invariant_vectors_rows (rs : ReactionSystem.t) :
  invariant_vectors rs = composition_matrix rs.
Proof.
  unfold invariant_vectors, linear_invariants, composition_matrix,
    composition_balance_vectors. cbn [fst].
  generalize (composition_keys rs) as ck.
  induction ck as [| k ck IH]; cbn; [reflexivity |].
  f_equal; [| exact IH].
  apply combine_map_snd. unfold substance_names, keys. now rewrite !length_map.
Qed.

Lemma check_reaction (rs : ReactionSystem.t) (r : Reaction.t) :
  check rs = true -> In r (ReactionSystem.rxns rs) ->
  nodup_keys (substance_names rs) = true /\ proper_dicts r = true
  /\ forall k, In k (composition_keys rs) ->
               side_composition rs (reactants r) k = side_composition rs (products r) k.
Proof.
  unfold check. intros Hc Hr.
  apply andb_prop in Hc. destruct Hc as [Hn Hall].
  rewrite forallb_forall in Hall. specialize (Hall r Hr).
  apply andb_prop in Hall. destruct Hall as [Hpk Hbal].
  apply andb_prop in Hpk. destruct Hpk as [Hp _].
  repeat split; try assumption.
  intros k Hk. unfold balanced in Hbal. rewrite forallb_forall in Hbal.
  apply Z.eqb_eq. apply Hbal. exact Hk.
Qed.

(** Every invariant of a checked network annihilates the stoichiometric
    change vector of every reaction. *)
Lemma invariant_annihilates_reaction (rs : ReactionSystem.t)
  (v : list Z) (r : Reaction.t) :
  check rs = true -> In v (invariant_vectors rs) ->
  In r (ReactionSystem.rxns rs) ->
  dot v (net_stoich rs r) = 0%Z.
Proof.
  intros Hc Hv Hr. rewrite invariant_vectors_rows in Hv.
  unfold composition_matrix, composition_balance_vectors in Hv. cbn [fst] in Hv.
  apply in_map_iff in Hv. destruct Hv as [k [<- Hk]].
  destruct (check_reaction rs r Hc Hr) as [Hn [Hp Hbal]].
  apply (@row_annihilates_net_stoich rs k r Hn Hp (Hbal k Hk)).
Qed.

Lemma dot_nil_r (u : list Z) : dot u [] = 0%Z.
Proof. unfold dot. now destruct u. Qed.

(** [v . M] for a matrix given by its columns is the vector of the dot
    products of [v] with the columns. *)
Lemma vecmat_columns (cols : list (list Z)) (v : list Z) (o : nat) :
  vecmat (List.length cols) v
         (map (fun j => map (fun c => nth j c 0%Z) cols) (seq o (List.length v)))
  = map (fun c => dot v (skipn o c)) cols.
Proof.
  revert o. induction v as [| x v IH]; intros o.
  - cbn. induction cols as [| c cols IHc]; cbn; [reflexivity |].
    now rewrite IHc.
  - cbn [List.length seq map vecmat]. rewrite IH.
    clear IH. induction cols as [| c cols IHc]; cbn [map combine]; [reflexivity |].
    f_equal; [| exact IHc]. cbn [fst snd].
    clear IHc. revert o. induction c as [| y c IHc']; intros o.
    + rewrite !skipn_nil, !dot_nil_r. destruct o; cbn; ring.
    + destruct o as [| o]; [reflexivity |].
      cbn [nth skipn]. apply IHc'.
Qed.

Lemma length_net_stoich (rs : ReactionSystem.t) (r : Reaction.t) :
  List.length (net_stoich rs r) = List.length (substance_names rs).
Proof. unfold net_stoich. apply length_map. Qed.

Lemma length_invariant_vector (rs : ReactionSystem.t) (v : list Z) :
  In v (invariant_vectors rs) -> List.length v = List.length (substance_names rs).
Proof.
  rewrite invariant_vectors_rows.
  unfold composition_matrix, composition_balance_vectors. cbn [fst].
  intros Hv. apply in_map_iff in Hv. destruct Hv as [k [<- _]].
  unfold substance_names, keys. now rewrite !length_map.
Qed.

(** ** Properties of the invariants *)

(** C5, as stated, fails on the notebook's network: the invariant of the
    protein total is returned, it is not in the left null-space of the
    composition matrix A, whose only element is the zero vector; its products
    with the rows of A, the other way to multiply the two, are not zero
    either. *)
Lemma rsys_invariant_outside_left_null_space :
  In [1; 1; 1; 0; 1]%Z (invariant_vectors rsys)
  /\ ~ left_null_space 5 (composition_matrix rsys) [1; 1; 1; 0; 1]%Z
  /\ (forall v, left_null_space 5 (composition_matrix rsys) v -> v = [0; 0]%Z)
  /\ map (dot [1; 1; 1; 0; 1]%Z) (composition_matrix rsys) = [1; 4]%Z.
Proof.
  split; [cbn; auto |]. split; [| split; [| reflexivity]].
  - intros [Hlen _]. discriminate Hlen.
  - intros v [Hlen Hv].
    destruct v as [| a [| b [| c v]]]; try discriminate Hlen.
    cbn in Hv. injection Hv as Hb _ _ Ha _.
    f_equal; [lia | f_equal; lia].
Qed.

(** C5, amended: every invariant vector returned for a checked network is a
    row of the composition matrix A and lies in the left null-space of the
    stoichiometry matrix N (v . N = 0, not v . A = 0); the number of
    independent invariants is the rank of A. *)
Theorem invariants_in_left_null_space_of_stoichiometry (rs : ReactionSystem.t) :
  check rs = true ->
  (forall v, In v (invariant_vectors rs) ->
             In v (composition_matrix rs)
             /\ left_null_space (List.length (ReactionSystem.rxns rs))
                                (stoichiometry_matrix rs) v)
  /\ rank (invariant_vectors rs) = rank (composition_matrix rs).
Proof.
  intros Hc. split; [| now rewrite invariant_vectors_rows].
  intros v Hv. split; [now rewrite <- invariant_vectors_rows |].
  unfold left_null_space, stoichiometry_matrix, transpose.
  rewrite length_map, length_seq. split; [now apply length_invariant_vector |].
  rewrite <- (length_invariant_vector rs v Hv).
  rewrite <- (length_map (net_stoich rs) (ReactionSystem.rxns rs)).
  rewrite vecmat_columns. rewrite length_map, map_map.
  assert (Hall : forall r, In r (ReactionSystem.rxns rs) ->
                           dot v (skipn 0 (net_stoich rs r)) = 0%Z).
  { intros r Hr. cbn [skipn]. now apply invariant_annihilates_reaction. }
  induction (ReactionSystem.rxns rs) as [| r l IH]; cbn [map List.length repeat];
    [reflexivity |].
  rewrite Hall by (left; reflexivity). f_equal. apply IH.
  intros r' Hr'. apply Hall. right. exact Hr'.
Qed.

Lemma invariants_in_left_null_space_of_stoichiometry_witness :
  (forall v, In v (invariant_vectors rsys) ->
             In v (composition_matrix rsys)
             /\ left_null_space (List.length (ReactionSystem.rxns rsys))
                                (stoichiometry_matrix rsys) v)
  /\ rank (invariant_vectors rsys) = rank (composition_matrix rsys).
Proof.
  apply (@invariants_in_left_null_space_of_stoichiometry rsys). reflexivity.
Defined.

(** C6: for every checked network the number of independent invariants
    returned is the rank of the composition matrix, and every invariant
    vector annihilates the stoichiometric change vector of every reaction. *)
Theorem invariants_rank_and_conservation (rs : ReactionSystem.t) :
  check rs = true ->
  rank (invariant_vectors rs) = rank (composition_matrix rs)
  /\ forall v r, In v (invariant_vectors rs) ->
                 In r (ReactionSystem.rxns rs) ->
                 dot v (net_stoich rs r) = 0%Z.
Proof.
  intros Hc. split; [now rewrite invariant_vectors_rows |].
  intros v r Hv Hr. now apply invariant_annihilates_reaction.
Qed.

Lemma invariants_rank_and_conservation_witness :
  rank (invariant_vectors rsys) = rank (composition_matrix rsys)
  /\ forall v r, In v (invariant_vectors rsys) ->
                 In r (ReactionSystem.rxns rsys) ->
                 dot v (net_stoich rsys r) = 0%Z.
Proof.
  apply (@invariants_rank_and_conservation rsys). reflexivity.
Defined.

(** ** Properties of the reduced systems *)

(** The symbolic derivative is the derivative: where the expression is
    defined, its value as a function of the symbol [x] has the value of
    [diff x e] as derivative. *)
Lemma diff_correct (env : string -> R) (x : string) (e : expr) (t : R) :
  defined (update env x t) e ->
  derivable_pt_lim (fun u => denote (update env x u) e) t
                   (denote (update env x t) (diff x e)).
Proof.
  induction e as [s | z | a IHa b IHb | a IHa b IHb | a IHa b IHb | a IHa b IHb
                 | a IHa | a IHa | a IHa]; cbn [defined diff denote].
  - intros _. unfold update at 1. destruct (String.eqb s x); cbn [denote].
    + apply derivable_pt_lim_id.
    + apply derivable_pt_lim_const.
  - intros _. apply (derivable_pt_lim_const (IZR z)).
  - intros [Ha Hb].
    apply (derivable_pt_lim_plus _ _ _ _ _ (IHa Ha) (IHb Hb)).
  - intros [Ha Hb].
    apply (derivable_pt_lim_minus _ _ _ _ _ (IHa Ha) (IHb Hb)).
  - intros [Ha Hb].
    apply (derivable_pt_lim_mult _ _ _ _ _ (IHa Ha) (IHb Hb)).
  - intros [Ha [Hb Hnz]].
    assert (D := derivable_pt_lim_div _ _ _ _ _ (IHa Ha) (IHb Hb) Hnz).
    unfold Rsqr in D.
    replace ((denote (update env x t) (diff x a) * denote (update env x t) b
              - denote (update env x t) a * denote (update env x t) (diff x b))
             / (denote (update env x t) b * denote (update env x t) b))%R
      with ((denote (update env x t) (diff x a) * denote (update env x t) b
             - denote (update env x t) (diff x b) * denote (update env x t) a)
            / (denote (update env x t) b * denote (update env x t) b))%R
      by (f_equal; ring).
    exact D.
  - intros Ha. apply (derivable_pt_lim_opp _ _ _ (IHa Ha)).
  - intros Ha.
    apply (derivable_pt_lim_comp _ exp _ _ _ (IHa Ha) (derivable_pt_lim_exp _)).
  - intros [Ha Hpos].
    assert (D := derivable_pt_lim_comp _ ln _ _ _ (IHa Ha) (derivable_pt_lim_ln _ Hpos)).
    replace (denote (update env x t) (diff x a) / denote (update env x t) a)%R
      with (/ denote (update env x t) a * denote (update env x t) (diff x a))%R
      by (unfold Rdiv; ring).
    exact D.
Qed.

(** Where the evaluation with Python's failures gives a value, the
    expression is defined and that value is its value in the reals. *)
Lemma eval_math_denote (env : string -> R) (e : expr) (v : R) :
  eval math_backend env e = Ok v -> v = denote env e /\ defined env e.
Proof.
  revert v.
  induction e as [s | z | a IHa b IHb | a IHa b IHb | a IHa b IHb | a IHa b IHb
                 | a IHa | a IHa | a IHa]; intros v; cbn [eval denote defined].
  - intros E. injection E as <-. auto.
  - intros E. injection E as <-. auto.
  - destruct (eval math_backend env a) as [x |]; [| discriminate].
    destruct (eval math_backend env b) as [y |]; [| discriminate].
    cbn. intros E. injection E as <-.
    destruct (IHa _ eq_refl) as [-> ?], (IHb _ eq_refl) as [-> ?]. auto.
  - destruct (eval math_backend env a) as [x |]; [| discriminate].
    destruct (eval math_backend env b) as [y |]; [| discriminate].
    cbn. intros E. injection E as <-.
    destruct (IHa _ eq_refl) as [-> ?], (IHb _ eq_refl) as [-> ?]. auto.
  - destruct (eval math_backend env a) as [x |]; [| discriminate].
    destruct (eval math_backend env b) as [y |]; [| discriminate].
    cbn. intros E. injection E as <-.
    destruct (IHa _ eq_refl) as [-> ?], (IHb _ eq_refl) as [-> ?]. auto.
  - destruct (eval math_backend env a) as [x |]; [| discriminate].
    destruct (eval math_backend env b) as [y |]; [| discriminate].
    cbn. destruct (Req_dec_T y 0) as [| Hy]; [discriminate |].
    intros E. injection E as <-.
    destruct (IHa _ eq_refl) as [-> ?], (IHb _ eq_refl) as [-> ?]. auto.
  - destruct (eval math_backend env a) as [x |]; [| discriminate].
    cbn. intros E. injection E as <-.
    destruct (IHa _ eq_refl) as [-> ?]. auto.
  - destruct (eval math_backend env a) as [x |]; [| discriminate].
    cbn. intros E. injection E as <-.
    destruct (IHa _ eq_refl) as [-> ?]. auto.
  - destruct (eval math_backend env a) as [x |]; [| discriminate].
    cbn. destruct (Rlt_dec 0 x) as [Hx |]; [| discriminate].
    intros E. injection E as <-.
    destruct (IHa _ eq_refl) as [-> ?]. auto.
Qed.

(** The value of a substituted expression is the value of the expression
    in the environment of the substituted values. *)
Lemma denote_subs (sigma : list (string * expr)) (env : string -> R) (e : expr) :
  denote env (subs sigma e)
  = denote (fun s => match lookup_expr sigma s with
                     | Some e' => denote env e'
                     | None => env s
                     end) e.
Proof.
  induction e; cbn [subs denote]; try congruence.
  destruct (lookup_expr sigma s); reflexivity.
Qed.

(** The derivatives of a reduced system are those of the full system at the
    state reconstructed from the analytic expressions. *)
Lemma reduced_derivatives (sys : SymbolicSys) (analytic : list (string * expr))
  (env : string -> R) :
  map (denote env) (free_exprs (partially_solved sys analytic))
  = map (fun p => denote (concentration (partially_solved sys analytic) env) (snd p))
        (filter (fun p => negb (mem (fst p) (keys analytic)))
                (combine (names sys) (exprs sys))).
Proof.
  unfold partially_solved. cbn [free_exprs]. rewrite map_map.
  apply map_ext. intros p. apply denote_subs.
Qed.

(** The value of an expression only depends on the values of the symbols. *)
Lemma denote_ext (env1 env2 : string -> R) (e : expr) :
  (forall s, env1 s = env2 s) -> denote env1 e = denote env2 e.
Proof.
  intros E. induction e; cbn [denote]; congruence.
Qed.

(** On the manifold the reconstructed concentrations are those of the state. *)
Lemma concentration_on_manifold (sys : PartiallySolvedSystem) (env : string -> R)
  (s : string) :
  on_manifold sys env -> concentration sys env s = env s.
Proof.
  unfold on_manifold, concentration.
  induction (analytic_exprs sys) as [| [k e] l IH]; cbn [lookup_expr]; [reflexivity |].
  intros H. apply Forall_cons_iff in H. destruct H as [Hk Hl]. cbn [fst snd] in Hk.
  destruct (String.eqb s k) eqn:E.
  - apply String.eqb_eq in E. subst s. symmetry. exact Hk.
  - apply IH. exact Hl.
Qed.

(** On its manifold a reduced system has the derivatives of the full system. *)
Lemma reduced_follows_full (sys : SymbolicSys) (analytic : list (string * expr))
  (env : string -> R) :
  on_manifold (partially_solved sys analytic) env ->
  map (denote env) (free_exprs (partially_solved sys analytic))
  = map (fun p => denote env (snd p))
        (filter (fun p => negb (mem (fst p) (keys analytic)))
                (combine (names sys) (exprs sys))).
Proof.
  intros H. rewrite reduced_derivatives. apply map_ext. intros p.
  apply denote_ext. intros s. now apply concentration_on_manifold.
Qed.

Ltac unfold_manifold :=
  unfold on_manifold, invariants_conserved, invariant_value;
  cbn [analytic_exprs psysLN_value psysLA_value];
  change (linear_invariants rsys) with
    [("ligand", [("N", 0); ("U", 0); ("A", 0); ("L", 1); ("NL", 1)]%Z);
     ("protein", [("N", 1); ("U", 1); ("A", 1); ("L", 0); ("NL", 1)]%Z)];
  rewrite !Forall_cons_iff, !Forall_nil_iff;
  cbn [fst snd denote fold_right String.append].

(** The manifold of either reduced system of the notebook is the set of the
    states that conserve the two invariants. *)
Lemma psysLN_manifold (env : string -> R) :
  on_manifold psysLN_value env <-> invariants_conserved rsys env.
Proof. unfold_manifold. lra. Qed.

Lemma psysLA_manifold (env : string -> R) :
  on_manifold psysLA_value env <-> invariants_conserved rsys env.
Proof. unfold_manifold. lra. Qed.

(** Both reduced systems of the notebook follow the full system: in a state
    that conserves the invariants, the derivatives of their free species are
    those of the full system. *)
Lemma reductions_follow_full_system (env : string -> R) :
  invariants_conserved rsys env ->
  map (denote env) (free_exprs psysLN_value)
  = map (fun p => denote env (snd p))
        (filter (fun p => negb (mem (fst p) ["L"; "N"]))
                (combine (names odesys_value) (exprs odesys_value)))
  /\ map (denote env) (free_exprs psysLA_value)
     = map (fun p => denote env (snd p))
           (filter (fun p => negb (mem (fst p) ["L"; "A"]))
                   (combine (names odesys_value) (exprs odesys_value))).
Proof.
  intros H. split.
  - change psysLN_value
      with (partially_solved odesys_value (call analytic_L_N_callback y0)).
    apply reduced_follows_full. apply psysLN_manifold. exact H.
  - change psysLA_value
      with (partially_solved odesys_value (call analytic_L_A_callback y0)).
    apply reduced_follows_full. apply psysLA_manifold. exact H.
Qed.

Lemma psysLN_computed : psysLN = Ok psysLN_value /\ get_jac psysLN_value = psysLN_jac.
Proof. split; vm_compute; reflexivity. Qed.

Lemma psysLA_computed : psysLA = Ok psysLA_value /\ get_jac psysLA_value = psysLA_jac.
Proof. split; vm_compute; reflexivity. Qed.

Ltac unfold_rates :=
  unfold rate_value, concentration, jacobian_value;
  cbn [rate_coefficient kinetics_f thermo_u kinetics_agg kinetics_as thermo_dis
       bind _gibbs _eyring unpack4 unpack2 sym_backend add sub mul truediv neg
       bexp blog map denote det expand drop_at List.length
       lookup_expr analytic_exprs psysLN_value psysLA_value
       String.eqb Ascii.eqb Bool.eqb].

Lemma eyring_value_pos (env : string -> R) (Ha Sa : string) :
  (0 < env "temperature")%R -> (0 < env "k_B")%R -> (0 < env "h")%R ->
  (0 < rate_value env (Eyring [Ha; Sa]))%R.
Proof.
  intros HT Hk Hh. unfold_rates.
  apply Rmult_lt_0_compat; [| apply exp_pos].
  apply Rmult_lt_0_compat; [| exact HT].
  apply Rdiv_lt_0_compat; assumption.
Qed.

Lemma gibbs_value_pos (env : string -> R) (H S_ Cp Tref : string) :
  (0 < rate_value env (Gibbs [H; S_; Cp; Tref]))%R.
Proof. unfold_rates. apply exp_pos. Qed.

Lemma product_value (env : string -> R) (k K : RateLaw) (ek eK : expr) :
  rate_coefficient k = Ok ek -> rate_coefficient K = Ok eK ->
  rate_value env (RateProduct k K) = (rate_value env k * rate_value env K)%R.
Proof.
  intros Hk HK. unfold rate_value. cbn [rate_coefficient].
  rewrite Hk, HK. reflexivity.
Qed.

(** The determinants of the two reduced Jacobians. *)
Lemma psysLN_determinant (env : string -> R) :
  jacobian_value env psysLN_jac
  = (- (rate_value env (RateProduct kinetics_f thermo_u)
        * rate_value env kinetics_agg
        * (rate_value env (RateProduct kinetics_as thermo_dis)
           + rate_value env kinetics_as * concentration psysLN_value env "N")))%R.
Proof. unfold psysLN_jac. unfold_rates. unfold Rdiv. ring. Qed.

Lemma psysLA_determinant (env : string -> R) :
  jacobian_value env psysLA_jac
  = (- (rate_value env (RateProduct kinetics_f thermo_u)
        * rate_value env kinetics_agg
        * (rate_value env (RateProduct kinetics_as thermo_dis)
           + rate_value env kinetics_as * concentration psysLA_value env "N")))%R.
Proof. unfold psysLA_jac. unfold_rates. unfold Rdiv. ring. Qed.

Lemma rsys_rows_independent (v : list Z) :
  left_null_space 5 (composition_matrix rsys) v -> v = [0; 0]%Z.
Proof.
  intros [Hlen Hv].
  destruct v as [| a [| b [| c v]]]; try discriminate Hlen.
  cbn in Hv. injection Hv as Hb _ _ Ha _.
  f_equal; [lia | f_equal; lia].
Qed.

Lemma reduced_determinant_nonzero (ku kagg kdis kas cN : R) :
  (0 < ku)%R -> (0 < kagg)%R -> (0 < kdis)%R -> (0 < kas)%R -> (0 <= cN)%R ->
  (- (ku * kagg * (kdis + kas * cN)) <> 0)%R.
Proof.
  intros Hu Hagg Hdis Has HN.
  assert (H1 : (0 < ku * kagg)%R) by (apply Rmult_lt_0_compat; assumption).
  assert (H2 : (0 <= kas * cN)%R) by (apply Rmult_le_pos; lra).
  assert (H3 : (0 < ku * kagg * (kdis + kas * cN))%R)
    by (apply Rmult_lt_0_compat; lra).
  lra.
Qed.

Section PhysicalState.

Variable env : string -> R.
Hypothesis temperature_pos : (0 < env "temperature")%R.
Hypothesis k_B_pos : (0 < env "k_B")%R.
Hypothesis h_pos : (0 < env "h")%R.

Lemma reduced_rates_nonzero (cN : R) :
  (0 <= cN)%R ->
  (- (rate_value env (RateProduct kinetics_f thermo_u)
      * rate_value env kinetics_agg
      * (rate_value env (RateProduct kinetics_as thermo_dis)
         + rate_value env kinetics_as * cN)) <> 0)%R.
Proof.
  intros HN.
  rewrite (@product_value env kinetics_f thermo_u _ _ eq_refl eq_refl).
  rewrite (@product_value env kinetics_as thermo_dis _ _ eq_refl eq_refl).
  assert (Hf := @eyring_value_pos env "Ha_f" "Sa_f" temperature_pos k_B_pos h_pos).
  assert (Hagg := @eyring_value_pos env "Ha_agg" "Sa_agg" temperature_pos k_B_pos h_pos).
  assert (Has := @eyring_value_pos env "Ha_as" "Sa_as" temperature_pos k_B_pos h_pos).
  assert (Hu := gibbs_value_pos env "He_u" "Se_u" "Cp_u" "Tref_u").
  assert (Hdis := gibbs_value_pos env "He_dis" "Se_dis" "Cp_dis" "Tref_dis").
  apply reduced_determinant_nonzero; try assumption;
    apply Rmult_lt_0_compat; assumption.
Qed.

Lemma psysLN_nonsingular :
  nonnegative_state psysLN_value env ->
  jacobian_value env (get_jac psysLN_value) <> 0%R.
Proof.
  intros Hst. destruct psysLN_computed as [_ ->].
  rewrite psysLN_determinant. apply reduced_rates_nonzero.
  unfold nonnegative_state in Hst. rewrite Forall_forall in Hst.
  apply Hst. cbn. auto 10.
Qed.

Lemma psysLA_nonsingular :
  nonnegative_state psysLA_value env ->
  jacobian_value env (get_jac psysLA_value) <> 0%R.
Proof.
  intros Hst. destruct psysLA_computed as [_ ->].
  rewrite psysLA_determinant. apply reduced_rates_nonzero.
  unfold nonnegative_state in Hst. rewrite Forall_forall in Hst.
  apply Hst. cbn. auto 10.
Qed.

End PhysicalState.

(** C7: the notebook's network of N, U, A, L and NL has exactly two
    independent invariants; eliminating L and N leaves the free variables
    U, A, NL, eliminating L and A leaves N, U, NL; each reduced system has
    three variables and its Jacobian is non-singular at every state of
    non-negative concentrations, for a positive temperature and positive
    constants k_B and h. *)
Theorem four_state_reduction (env : string -> R) :
  (0 < env "temperature")%R -> (0 < env "k_B")%R -> (0 < env "h")%R ->
  (List.length (linear_invariants rsys) = 2%nat
   /\ rank (composition_matrix rsys) = 2%nat
   /\ forall v, left_null_space 5 (composition_matrix rsys) v -> v = [0; 0]%Z)
  /\ (exists sys, psysLN = Ok sys
                  /\ free_names sys = ["U"; "A"; "NL"]
                  /\ List.length (get_jac sys) = 3%nat
                  /\ (nonnegative_state sys env ->
                      jacobian_value env (get_jac sys) <> 0%R))
  /\ (exists sys, psysLA = Ok sys
                  /\ free_names sys = ["N"; "U"; "NL"]
                  /\ List.length (get_jac sys) = 3%nat
                  /\ (nonnegative_state sys env ->
                      jacobian_value env (get_jac sys) <> 0%R)).
Proof.
  intros HT Hk Hh. split; [| split].
  - split; [reflexivity |]. split; [reflexivity |]. exact rsys_rows_independent.
  - exists psysLN_value. split; [exact (proj1 psysLN_computed) |].
    split; [reflexivity |]. split; [vm_compute; reflexivity |].
    exact (psysLN_nonsingular HT Hk Hh).
  - exists psysLA_value. split; [exact (proj1 psysLA_computed) |].
    split; [reflexivity |]. split; [vm_compute; reflexivity |].
    exact (psysLA_nonsingular HT Hk Hh).
Qed.

(** The initial state of the notebook is a state of non-negative
    concentrations of both reduced systems. *)
Lemma initial_state_nonnegative :
  nonnegative_state psysLN_value initial_state
  /\ nonnegative_state psysLA_value initial_state.
Proof.
  unfold nonnegative_state.
  cbn [free_names analytic_exprs psysLN_value psysLA_value app keys map fst].
  split; repeat constructor;
    unfold concentration, initial_state, params, default_c0;
    cbn [lookup_expr analytic_exprs psysLN_value psysLA_value env_of app denote
         String.eqb Ascii.eqb Bool.eqb]; lra.
Qed.

Lemma initial_state_physical :
  (0 < initial_state "temperature")%R /\ (0 < initial_state "k_B")%R
  /\ (0 < initial_state "h")%R.
Proof.
  unfold initial_state, params, default_c0.
  cbn [env_of app String.eqb Ascii.eqb Bool.eqb]. repeat split; lra.
Qed.

Lemma four_state_reduction_witness :
  (exists sys, psysLN = Ok sys
               /\ free_names sys = ["U"; "A"; "NL"]
               /\ jacobian_value initial_state (get_jac sys) <> 0%R)
  /\ (exists sys, psysLA = Ok sys
                  /\ free_names sys = ["N"; "U"; "NL"]
                  /\ jacobian_value initial_state (get_jac sys) <> 0%R).
Proof.
  destruct initial_state_physical as [HT [Hk Hh]].
  destruct (four_state_reduction initial_state HT Hk Hh)
    as [_ [[s1 [E1 [F1 [_ N1]]]] [s2 [E2 [F2 [_ N2]]]]]].
  destruct initial_state_nonnegative as [P1 P2].
  split.
  - exists s1. repeat split; try assumption. apply N1.
    replace s1 with psysLN_value; [exact P1 |].
    destruct psysLN_computed as [E _]. congruence.
  - exists s2. repeat split; try assumption. apply N2.
    replace s2 with psysLA_value; [exact P2 |].
    destruct psysLA_computed as [E _]. congruence.
Defined.

(** ** The callbacks on numbers *)

Lemma quotient_pos_iff (a b : R) : b <> 0%R -> (0 < a / b <-> 0 < a * b)%R.
Proof.
  intros Hb. assert (E : (a * b = a / b * (b * b))%R) by (field; exact Hb).
  assert (Hbb : (0 < b * b)%R) by nra.
  split; intros H.
  - rewrite E. apply Rmult_lt_0_compat; assumption.
  - rewrite E in H. nra.
Qed.

(** X1: the callbacks unpack their first argument, so a sequence of any
    other length than four for [_gibbs] and two for [_eyring] raises
    ValueError, on every backend and before any arithmetic. *)
Theorem callbacks_reject_wrong_arity (B : Backend) (args4 args2 : list (num B))
  (T R k_B h : num B) :
  List.length args4 <> 4%nat -> List.length args2 <> 2%nat ->
  _gibbs B args4 T R = Raise (ValueError "unpack")
  /\ _eyring B args2 T R k_B h = Raise (ValueError "unpack").
Proof.
  intros H4 H2. split.
  - unfold _gibbs, unpack4.
    destruct args4 as [| a [| b [| c [| d [| e l]]]]]; try reflexivity.
    now contradiction H4.
  - unfold _eyring, unpack2.
    destruct args2 as [| a [| b [| c l]]]; try reflexivity.
    now contradiction H2.
Qed.

Lemma callbacks_reject_wrong_arity_witness :
  _gibbs math_backend [] 1%R 1%R = Raise (ValueError "unpack")
  /\ _eyring math_backend [1%R; 2%R; 3%R] 1%R 1%R 1%R 1%R = Raise (ValueError "unpack").
Proof.
  apply (@callbacks_reject_wrong_arity math_backend [] [1; 2; 3]%R); cbn; lia.
Defined.

(** The three cases of [_gibbs] over the exact real numbers. *)
Lemma gibbs_math_cases (H S_ Cp Tref T R : R) :
  let r := _gibbs math_backend [H; S_; Cp; Tref] T R in
  ((0 < T * Tref)%R /\ R <> 0%R
   /\ r = Ok (exp (- (H + Cp * (T - Tref) - T * (S_ + Cp * ln (T / Tref))) / (R * T)))%R)
  \/ ((Tref = 0%R \/ ((0 < T * Tref)%R /\ R = 0%R)) /\ r = Raise ZeroDivisionError)
  \/ (Tref <> 0%R /\ (T * Tref <= 0)%R /\ r = Raise math_domain_error).
Proof.
  cbv zeta.
  destruct (Req_dec_T Tref 0) as [E | N].
  - right. left. split; [left; exact E |].
    subst Tref. unfold _gibbs, unpack4. cbn [bind add sub mul neg bexp math_backend].
    rewrite truediv_math_zero. reflexivity.
  - destruct (Rlt_dec 0 (T * Tref)) as [P | NP].
    + assert (Hq : (0 < T / Tref)%R) by (apply (@quotient_pos_iff T Tref N); exact P).
      destruct (Req_dec_T R 0) as [ER | NR].
      * right. left. split; [right; split; assumption |].
        subst R. unfold _gibbs, unpack4. cbn [bind add sub mul neg bexp math_backend].
        rewrite (truediv_math T N). cbn [bind]. rewrite (blog_math Hq). cbn [bind].
        replace (0 * T)%R with 0%R by ring. rewrite truediv_math_zero. reflexivity.
      * left. split; [exact P |]. split; [exact NR |].
        apply gibbs_math_value; try assumption.
        apply Rmult_integral_contrapositive_currified; [exact NR |].
        intros ET. subst T. lra.
    + right. right. split; [exact N |]. split; [lra |].
      unfold _gibbs, unpack4. cbn [bind add sub mul neg bexp math_backend].
      rewrite (truediv_math T N). cbn [bind].
      rewrite blog_math_domain; [reflexivity |].
      destruct (Rle_or_lt (T / Tref) 0) as [Hle | Hlt]; [exact Hle | exfalso].
      apply NP. apply (@quotient_pos_iff T Tref N). exact Hlt.
Qed.



(** ** The temperature dependence of the equilibrium constant *)

Lemma derivable_pt_lim_local (f g : R -> R) (x l d : R) :
  (0 < d)%R -> (forall y, (Rabs (y - x) < d)%R -> f y = g y) ->
  derivable_pt_lim g x l -> derivable_pt_lim f x l.
Proof.
  intros Hd Hfg Hg eps Heps.
  destruct (Hg eps Heps) as [delta Hdelta].
  assert (Hm : (0 < Rmin delta d)%R) by (apply Rmin_pos; [apply cond_pos | exact Hd]).
  exists (mkposreal (Rmin delta d) Hm). intros h Hh Hlt. cbn in Hlt.
  assert (Hh1 : (Rabs h < delta)%R) by (eapply Rlt_le_trans; [exact Hlt | apply Rmin_l]).
  assert (Hh2 : (Rabs h < d)%R) by (eapply Rlt_le_trans; [exact Hlt | apply Rmin_r]).
  rewrite (Hfg (x + h)%R), (Hfg x).
  - apply Hdelta; assumption.
  - replace (x - x)%R with 0%R by ring. rewrite Rabs_R0. exact Hd.
  - replace (x + h - x)%R with h by ring. exact Hh2.
Qed.

Lemma gibbs_value_formula (H S_ Cp Tref T R : R) :
  (0 < T * Tref)%R -> R <> 0%R ->
  gibbs_value H S_ Cp Tref T R
  = denote (update (gibbs_env H S_ Cp Tref R) "T" T) gibbs_equilibrium_formula.
Proof.
  intros HTT HR. unfold gibbs_value.
  destruct (gibbs_math_cases H S_ Cp Tref T R)
    as [[_ [_ V]] | [[[E | [_ E]] _] | [_ [E _]]]]; cbv zeta in *;
    try contradiction; try (exfalso; subst; lra).
  rewrite V. reflexivity.
Qed.

(** X7: the van 't Hoff equation.  Where [_gibbs] returns a constant K (T
    and Tref of the same sign, R not zero), K is differentiable in the
    temperature and dK/dT = K * (H + Cp*(T - Tref)) / (R*T^2): the enthalpy
    at T over R*T^2 is the derivative of ln K. *)
Theorem gibbs_van_t_Hoff (H S_ Cp Tref T R : R) :
  (0 < T * Tref)%R -> R <> 0%R ->
  derivable_pt_lim (fun t => gibbs_value H S_ Cp Tref t R) T
    (gibbs_value H S_ Cp Tref T R * (H + Cp * (T - Tref)) / (R * (T * T)))%R.
Proof.
  intros HTT HR.
  assert (HT : T <> 0%R) by (intros E; subst T; lra).
  assert (HTref : Tref <> 0%R) by (intros E; subst Tref; lra).
  assert (Hq : (0 < T / Tref)%R) by (apply (@quotient_pos_iff T Tref HTref); exact HTT).
  assert (HRT : (R * T)%R <> 0%R)
    by (apply Rmult_integral_contrapositive_currified; assumption).
  apply (@derivable_pt_lim_local _
           (fun t => denote (update (gibbs_env H S_ Cp Tref R) "T" t)
                            gibbs_equilibrium_formula) T _ (Rabs T)).
  - apply Rabs_pos_lt. exact HT.
  - intros t Ht. apply gibbs_value_formula; [| exact HR].
    assert (Hs : (0 < t * T)%R).
    { unfold Rabs in Ht. destruct (Rcase_abs (t - T)), (Rcase_abs T); nra. }
    assert (Hp : (0 < (t * T) * (T * Tref))%R) by (apply Rmult_lt_0_compat; assumption).
    assert (HTT2 : (0 < T * T)%R) by nra.
    replace (t * T * (T * Tref))%R with ((t * Tref) * (T * T))%R in Hp by ring.
    destruct (Rlt_dec 0 (t * Tref)) as [P | NP]; [exact P | exfalso].
    assert ((t * Tref) * (T * T) <= 0)%R by nra. lra.
  - rewrite (gibbs_value_formula H S_ Cp HTT HR).
    replace (denote (update (gibbs_env H S_ Cp Tref R) "T" T) gibbs_equilibrium_formula
             * (H + Cp * (T - Tref)) / (R * (T * T)))%R
      with (denote (update (gibbs_env H S_ Cp Tref R) "T" T)
                   (diff "T" gibbs_equilibrium_formula)).
    + apply diff_correct. cbn. repeat split; assumption.
    + cbn. field. repeat split; assumption.
Qed.

Lemma gibbs_van_t_Hoff_witness :
  derivable_pt_lim (fun t => gibbs_value 60e3 180 20.5e3 298.15 t 8.314472) 323.15
    (gibbs_value 60e3 180 20.5e3 298.15 323.15 8.314472
     * (60e3 + 20.5e3 * (323.15 - 298.15)) / (8.314472 * (323.15 * 323.15)))%R.
Proof.
  apply (@gibbs_van_t_Hoff 60e3 180 20.5e3 298.15 323.15 8.314472)%R; lra.
Defined.

(** ** [Se0_from_Tm]: missing parameters *)

Lemma getitem_absent (A : Type) (d : list (string * A)) (k : string) :
  mem k (keys d) = false -> getitem d k = Raise (KeyError k).
Proof.
  induction d as [| [k' v] d IH]; cbn; [reflexivity |].
  intros H. apply orb_false_elim in H. destruct H as [Hk Hd].
  rewrite Hk. apply IH. exact Hd.
Qed.

Lemma getitem_present (A : Type) (d : list (string * A)) (k : string) :
  mem k (keys d) = true -> exists v, getitem d k = Ok v.
Proof.
  induction d as [| [k' v] d IH]; cbn; [discriminate |].
  destruct (String.eqb k k'); [intros _; eexists; reflexivity |].
  cbn. exact IH.
Qed.

(** X8: [Se0_from_Tm] looks up 'He_', 'Tref_' and 'Cp_' followed by the
    token, in this order; the first of these keys that the parameters do not
    hold is raised as a KeyError, whatever Tm is. *)
Theorem Se0_from_Tm_missing_key (params : list (string * R)) (Tm : R)
  (token k : string) :
  first_missing params [("He_" ++ token)%string; ("Tref_" ++ token)%string;
                        ("Cp_" ++ token)%string] = Some k ->
  Se0_from_Tm params Tm token = Raise (KeyError k).
Proof.
  unfold first_missing, Se0_from_Tm. cbn [find].
  destruct (mem ("He_" ++ token) (keys params)) eqn:E1; cbn [negb].
  - destruct (getitem_present _ _ E1) as [v1 ->]. cbn [bind].
    destruct (mem ("Tref_" ++ token) (keys params)) eqn:E2; cbn [negb].
    + destruct (getitem_present _ _ E2) as [v2 ->]. cbn [bind].
      destruct (mem ("Cp_" ++ token) (keys params)) eqn:E3; cbn [negb];
        [discriminate |].
      intros E. injection E as <-. rewrite (getitem_absent _ _ E3). reflexivity.
    + intros E. injection E as <-. rewrite (getitem_absent _ _ E2). reflexivity.
  - intros E. injection E as <-. rewrite (getitem_absent _ _ E1). reflexivity.
Qed.

Lemma Se0_from_Tm_missing_key_witness :
  Se0_from_Tm params (48.2 + 273.15)%R "f" = Raise (KeyError "He_f").
Proof.
  apply (@Se0_from_Tm_missing_key params (48.2 + 273.15)%R "f" "He_f"). reflexivity.
Defined.

(** ** The shifted logarithm and its inverse *)

(** X11: the two transformations of [logexp] are inverse to each other.
    On symbols each composition builds an expression; as real numbers,
    forward after backward has the value of its argument for every shift,
    and backward after forward has the value of its argument wherever the
    argument plus the shift is positive. *)
Theorem logexp_round_trip (env : string -> R) (eps x : expr) :
  let (forward, backward) := logexp sym_backend eps in
  exists fb bf,
    (y <- backward x ;; forward y) = Ok fb
    /\ (y <- forward x ;; backward y) = Ok bf
    /\ denote env fb = denote env x
    /\ ((0 < denote env x + denote env eps)%R -> denote env bf = denote env x).
Proof.
  unfold logexp. cbn [bind add sub bexp blog sym_backend].
  eexists. eexists. split; [reflexivity |]. split; [reflexivity |].
  cbn [denote]. split.
  - replace (exp (denote env x) - denote env eps + denote env eps)%R
      with (exp (denote env x)) by ring.
    apply ln_exp.
  - intros Hx. rewrite exp_ln by exact Hx. ring.
Qed.

(** ** The names of the reactions *)

Lemma strip_prefix_drop (p s r : string) :
  strip_prefix p s = Some r -> (p ++ r)%string = s /\ r = drop (String.length p) s.
Proof.
  revert s. induction p as [| a p IH]; intros s; cbn.
  - intros E. injection E as <-. split; [reflexivity | now destruct s].
  - destruct s as [| b s]; [discriminate |].
    destruct (Ascii.eqb a b) eqn:E; [| discriminate].
    apply Ascii.eqb_eq in E. subst b. intros H.
    destruct (IH _ H) as [E1 E2]. split; [now rewrite E1 | exact E2].
Qed.

Lemma replace_from_same (a : ascii) (old s : string) (k : nat) :
  replace_from k (String a old) (String a old) s = drop k s.
Proof.
  revert k. induction s as [| c s IH]; intros k.
  - now destruct k.
  - destruct k as [| k]; cbn [replace_from drop]; [| apply IH].
    destruct (strip_prefix (String a old) (String c s)) as [r |] eqn:E.
    + rewrite IH. destruct (strip_prefix_drop _ _ E) as [E1 E2].
      assert (Hlen : (String.length (String a old) - 1 = String.length old)%nat)
        by (cbn; lia).
      rewrite Hlen. cbn [String.length drop] in E2. rewrite <- E2. exact E1.
    + rewrite IH. reflexivity.
Qed.

Lemma replace_same (old s : string) : replace old old s = s.
Proof.
  unfold replace. destruct old as [| a old].
  - induction s as [| c s IH]; cbn; [reflexivity | now rewrite IH].
  - apply (replace_from_same a old s 0).
Qed.

Lemma replace_char (a b : ascii) (s : string) :
  replace (String a EmptyString) (String b EmptyString) s = translate a b s.
Proof.
  unfold replace. induction s as [| c s IH]; cbn; [reflexivity |].
  rewrite Ascii.eqb_sym. destruct (Ascii.eqb c a); cbn; now rewrite IH.
Qed.

Lemma translate_length (a b : ascii) (s : string) :
  String.length (translate a b s) = String.length s.
Proof. induction s as [| c s IH]; cbn; [reflexivity | now rewrite IH]. Qed.

Lemma translate_removes (a b : ascii) (s : string) :
  Ascii.eqb b a = false ->
  all_chars (fun c => negb (Ascii.eqb c a)) (translate a b s) = true.
Proof.
  intros Hab. induction s as [| c s IH]; cbn; [reflexivity |].
  rewrite IH, andb_true_r. destruct (Ascii.eqb c a) eqn:E; [now rewrite Hab | now rewrite E].
Qed.

(** X12: the name under which a reaction is typeset is its name with every
    space exchanged for a tilde: the second replacement, of a hyphen by a
    hyphen, changes nothing.  The result has the length of the name and
    holds no space. *)
Theorem rname_translates (name : string) :
  rname name = translate " " "~" name
  /\ String.length (rname name) = String.length name
  /\ all_chars (fun c => negb (Ascii.eqb c " ")) (rname name) = true.
Proof.
  unfold rname. rewrite replace_same, replace_char.
  split; [reflexivity |]. split; [apply translate_length |].
  apply translate_removes. reflexivity.
Qed.

(** ** The typeset names of the parameters *)

Section RegexProperties.

Variable word_high : ascii -> bool.

Lemma string_app_nil_r (s : string) : (s ++ "")%string = s.
Proof. induction s as [| c s IH]; cbn; [reflexivity | now rewrite IH]. Qed.

Lemma string_app_length (s t : string) :
  String.length (s ++ t) = (String.length s + String.length t)%nat.
Proof. induction s as [| c s IH]; cbn; [reflexivity | now rewrite IH]. Qed.

Lemma strip_prefix_app (p s : string) : strip_prefix p (p ++ s) = Some s.
Proof.
  induction p as [| a p IH]; cbn; [reflexivity |].
  now rewrite Ascii.eqb_refl.
Qed.

Lemma take_word_all (w : string) :
  all_chars (is_word word_high) w = true -> take_word word_high w = w.
Proof.
  induction w as [| c w IH]; cbn; [reflexivity |].
  intros H. apply andb_prop in H. destruct H as [Hc Hw].
  now rewrite Hc, IH.
Qed.

Lemma re_sub_skip_all (lit : string) (t : list piece) (s : string) (k : nat) :
  (String.length s <= k)%nat -> re_sub_from word_high k lit t s = "".
Proof.
  revert k. induction s as [| c s IH]; intros k Hk; [reflexivity |].
  cbn in Hk. destruct k as [| k]; [lia |].
  cbn. apply IH. lia.
Qed.

Lemma re_sub_no_match (lit : string) (t : list piece) (s : string) :
  has_match word_high lit s = false -> re_sub_from word_high 0 lit t s = s.
Proof.
  induction s as [| c s IH]; [reflexivity |].
  intros H. change (matches_at word_high lit (String c s) || has_match word_high lit s = false) in H.
  apply orb_false_elim in H. destruct H as [Hm Hs].
  change (re_sub_from word_high 0 lit t (String c s)) with
    (match strip_prefix lit (String c s) with
     | Some rest =>
         match take_word word_high rest with
         | EmptyString => String c (re_sub_from word_high 0 lit t s)
         | g => (expand_template t g
                 ++ re_sub_from word_high (String.length lit + String.length g - 1) lit t s)%string
         end
     | None => String c (re_sub_from word_high 0 lit t s)
     end).
  unfold matches_at in Hm.
  destruct (strip_prefix lit (String c s)) as [rest |].
  - destruct (take_word word_high rest); [| discriminate]. now rewrite IH.
  - now rewrite IH.
Qed.

Lemma re_sub_match (l : ascii) (lit : string) (t : list piece) (w : string) :
  w <> "" -> all_chars (is_word word_high) w = true ->
  re_sub_from word_high 0 (String l lit) t (String l lit ++ w) = expand_template t w.
Proof.
  intros Hne Hw.
  change (String l lit ++ w)%string with (String l (lit ++ w)).
  change (re_sub_from word_high 0 (String l lit) t (String l (lit ++ w))) with
    (match strip_prefix (String l lit) (String l (lit ++ w)) with
     | Some rest =>
         match take_word word_high rest with
         | EmptyString => String l (re_sub_from word_high 0 (String l lit) t (lit ++ w))
         | g => (expand_template t g
                 ++ re_sub_from word_high
                      (String.length (String l lit) + String.length g - 1)
                      (String l lit) t (lit ++ w))%string
         end
     | None => String l (re_sub_from word_high 0 (String l lit) t (lit ++ w))
     end).
  change (String l (lit ++ w)) with (String l lit ++ w)%string.
  rewrite strip_prefix_app, take_word_all by assumption.
  destruct w as [| a w]; [congruence |].
  cbv beta iota zeta.
  rewrite re_sub_skip_all; [apply string_app_nil_r |].
  rewrite string_app_length. cbn. lia.
Qed.

Lemma strip_prefix_block (lit w rest : string) (c : ascii) :
  no_underscore lit = false -> avoids c lit = true -> no_underscore w = true ->
  strip_prefix lit (w ++ String c rest) = None.
Proof.
  revert lit. induction w as [| a w IH]; intros lit Hu Hc Hw.
  - destruct lit as [| x lit]; [discriminate |].
    cbn in Hc |- *. apply andb_prop in Hc. destruct Hc as [Hx _].
    now destruct (Ascii.eqb x c).
  - destruct lit as [| x lit]; [discriminate |].
    cbn in Hu, Hc, Hw |- *.
    apply andb_prop in Hc. destruct Hc as [_ Hc].
    apply andb_prop in Hw. destruct Hw as [Ha Hw].
    destruct (Ascii.eqb x a) eqn:E; [| reflexivity].
    apply Ascii.eqb_eq in E. subst x. rewrite Ha in Hu. cbn in Hu.
    now apply IH.
Qed.

Lemma strip_prefix_free (lit w : string) :
  no_underscore lit = false -> no_underscore w = true -> strip_prefix lit w = None.
Proof.
  revert lit. induction w as [| a w IH]; intros lit Hu Hw.
  - destruct lit; [discriminate | reflexivity].
  - destruct lit as [| x lit]; [discriminate |].
    cbn in Hu, Hw |- *.
    apply andb_prop in Hw. destruct Hw as [Ha Hw].
    destruct (Ascii.eqb x a) eqn:E; [| reflexivity].
    apply Ascii.eqb_eq in E. subst x. rewrite Ha in Hu. cbn in Hu.
    now apply IH.
Qed.

Lemma has_match_block (lit w rest : string) (c : ascii) :
  no_underscore lit = false -> avoids c lit = true -> no_underscore w = true ->
  has_match word_high lit (w ++ String c rest) = has_match word_high lit (String c rest).
Proof.
  intros Hu Hc. induction w as [| a w IH]; intros Hw; [reflexivity |].
  change (String a w ++ String c rest)%string with (String a (w ++ String c rest)).
  change (has_match word_high lit (String a (w ++ String c rest))) with
    (matches_at word_high lit (String a w ++ String c rest)
     || has_match word_high lit (w ++ String c rest)).
  unfold matches_at. rewrite strip_prefix_block by assumption.
  cbn in Hw. apply andb_prop in Hw. destruct Hw as [_ Hw].
  now rewrite IH.
Qed.

Lemma has_match_free (lit w : string) :
  no_underscore lit = false -> no_underscore w = true -> has_match word_high lit w = false.
Proof.
  intros Hu. induction w as [| a w IH]; intros Hw; [reflexivity |].
  change (has_match word_high lit (String a w)) with
    (matches_at word_high lit (String a w) || has_match word_high lit w).
  unfold matches_at. rewrite strip_prefix_free by assumption.
  cbn in Hw. apply andb_prop in Hw. destruct Hw as [_ Hw].
  now rewrite IH.
Qed.

Lemma pretty_replace_loop_no_match (subs : list (string * string)) (s : string) :
  Forall (fun p => parse_template (snd p) <> None
                   /\ has_match word_high (fst p) s = false) subs ->
  pretty_replace_loop word_high subs s = Some s.
Proof.
  induction 1 as [| [lit tmpl] subs [Hp Hm] _ IH]; [reflexivity |].
  cbn in Hp, Hm |- *. unfold re_sub.
  destruct (parse_template tmpl) as [t |]; [| congruence].
  cbn. now rewrite re_sub_no_match by assumption.
Qed.

Lemma default_subs_templates :
  Forall (fun p : string * string => parse_template (snd p) <> None) default_subs.
Proof. unfold default_subs. repeat constructor; discriminate. Qed.

Lemma no_match_all (subs : list (string * string)) (s : string) :
  Forall (fun p : string * string => parse_template (snd p) <> None) subs ->
  (forall lit tmpl, In (lit, tmpl) subs -> has_match word_high lit s = false) ->
  Forall (fun p => parse_template (snd p) <> None
                   /\ has_match word_high (fst p) s = false) subs.
Proof.
  intros Hp Hm. apply Forall_forall. intros [lit tmpl] Hin. split.
  - exact (proj1 (Forall_forall _ _) Hp _ Hin).
  - exact (Hm _ _ Hin).
Qed.

(** X13: [pretty_replace] with its default substitutions returns a string
    unchanged when none of the six prefixes 'Ha_', 'Sa_', 'He_', 'Se_',
    'Cp_' and 'Tref_' occurs in it before a word character; in particular
    the six templates are all accepted by [re.sub]. *)
Theorem pretty_replace_without_match (s : string) :
  (forall lit tmpl, In (lit, tmpl) default_subs -> has_match word_high lit s = false) ->
  pretty_replace word_high s None = Some s.
Proof.
  intros H. unfold pretty_replace.
  apply pretty_replace_loop_no_match.
  apply no_match_all; [exact default_subs_templates | exact H].
Qed.

Lemma loop_skip (lit tmpl : string) (subs : list (string * string)) (s : string) :
  parse_template tmpl <> None -> has_match word_high lit s = false ->
  pretty_replace_loop word_high ((lit, tmpl) :: subs) s
  = pretty_replace_loop word_high subs s.
Proof.
  intros Hp Hm. cbn. unfold re_sub.
  destruct (parse_template tmpl) as [t |]; [| congruence].
  cbn. now rewrite re_sub_no_match by assumption.
Qed.

Lemma loop_hit (l : ascii) (lit tmpl : string) (t : list piece)
  (subs : list (string * string)) (w : string) :
  parse_template tmpl = Some t -> w <> "" -> all_chars (is_word word_high) w = true ->
  pretty_replace_loop word_high ((String l lit, tmpl) :: subs) (String l lit ++ w)
  = pretty_replace_loop word_high subs (expand_template t w).
Proof.
  intros Hp Hne Hw.
  change (pretty_replace_loop word_high ((String l lit, tmpl) :: subs) (String l lit ++ w))
    with (match re_sub word_high (String l lit) tmpl (String l lit ++ w) with
          | Some s' => pretty_replace_loop word_high subs s'
          | None => None
          end).
  unfold re_sub. rewrite Hp.
  change (option_map ?f (Some ?x)) with (Some (f x)). cbv beta.
  now rewrite re_sub_match by assumption.
Qed.

Ltac no_match_here :=
  cbn;
  try (rewrite has_match_block by (reflexivity || assumption); cbn);
  first [reflexivity | apply has_match_free; [reflexivity | assumption]].

Ltac skip_pass := rewrite loop_skip; [| discriminate | no_match_here].

Ltac hit_pass := erewrite loop_hit; [| reflexivity | assumption | assumption].

(** X14: for a name w that is not empty and consists of word characters
    other than the underscore, [pretty_replace] typesets the six kinds of
    parameters: 'Ha_w' and 'Sa_w' become the enthalpy and the entropy of
    activation of w, 'He_w' and 'Se_w' the standard enthalpy and entropy,
    'Cp_w' the heat capacity and 'Tref_w' the reference temperature; no
    later substitution touches the result of an earlier one. *)
Theorem pretty_replace_prefixed_name (w : string) :
  w <> "" -> all_chars (is_word word_high) w = true -> no_underscore w = true ->
  pretty_replace word_high ("Ha_" ++ w)%string None = Some ("\Delta_{" ++ w ++ "}H^{\neq}")%string
  /\ pretty_replace word_high ("Sa_" ++ w)%string None = Some ("\Delta_{" ++ w ++ "}S^{\neq}")%string
  /\ pretty_replace word_high ("He_" ++ w)%string None = Some ("\Delta_{" ++ w ++ "}H^\circ")%string
  /\ pretty_replace word_high ("Se_" ++ w)%string None = Some ("\Delta_{" ++ w ++ "}S^\circ")%string
  /\ pretty_replace word_high ("Cp_" ++ w)%string None = Some ("\Delta_{" ++ w ++ "}\,C_p")%string
  /\ pretty_replace word_high ("Tref_" ++ w)%string None = Some ("T^{\circ}_{" ++ w ++ "}")%string.
Proof.
  intros Hne Hw Hu. unfold pretty_replace, default_subs.
  split; [| split; [| split; [| split; [| split]]]].
  - hit_pass. do 5 skip_pass. reflexivity.
  - skip_pass. hit_pass. do 4 skip_pass. reflexivity.
  - do 2 skip_pass. hit_pass. do 3 skip_pass. reflexivity.
  - do 3 skip_pass. hit_pass. do 2 skip_pass. reflexivity.
  - do 4 skip_pass. hit_pass. skip_pass. reflexivity.
  - do 5 skip_pass. hit_pass. reflexivity.
Qed.

(** X15: for a key that is not the name of a substance, [mk_Symbol] gives
    the symbol whose name is the key with every 'temperature' replaced by
    'T', provided none of the six prefixes of [pretty_replace] occurs in that
    name before a word character. *)
Theorem mk_Symbol_plain_key (substances : list (string * Substance.t)) (key : string) :
  lookup substances key = None ->
  (forall lit tmpl, In (lit, tmpl) default_subs ->
     has_match word_high lit (replace "temperature" "T" key) = false) ->
  mk_Symbol word_high substances key = Some (Sym (replace "temperature" "T" key)).
Proof.
  intros Hk Hm. unfold mk_Symbol, pretty_replace. rewrite Hk.
  rewrite pretty_replace_loop_no_match; [reflexivity |].
  apply no_match_all; [exact default_subs_templates | exact Hm].
Qed.

End RegexProperties.

Lemma pretty_replace_without_match_witness :
  pretty_replace ascii_word "k_B" None = Some "k_B".
Proof.
  apply pretty_replace_without_match.
  intros lit tmpl Hin. cbn in Hin.
  repeat (destruct Hin as [E | Hin]; [injection E as <- <-; reflexivity |]).
  destruct Hin.
Defined.

Lemma pretty_replace_prefixed_name_witness :
  pretty_replace ascii_word "Ha_agg" None = Some "\Delta_{agg}H^{\neq}".
Proof.
  refine (proj1 (@pretty_replace_prefixed_name ascii_word "agg" _ _ _));
    [discriminate | reflexivity | reflexivity].
Defined.

Lemma mk_Symbol_plain_key_witness :
  mk_Symbol ascii_word substances "temperature" = Some (Sym "T").
Proof.
  apply (@mk_Symbol_plain_key ascii_word substances "temperature").
  - reflexivity.
  - intros lit tmpl Hin. cbn in Hin.
    repeat (destruct Hin as [E | Hin]; [injection E as <- <-; reflexivity |]).
    destruct Hin.
Defined.

(** ** The keywords of the call of the integrator *)

Lemma getitem_setitem_same (A : Type) (d : list (string * A)) (k : string) (v : A) :
  getitem (setitem d k v) k = Ok v.
Proof.
  induction d as [| [k' x] d IH]; cbn.
  - now rewrite String.eqb_refl.
  - destruct (String.eqb k k') eqn:E; cbn; rewrite E; [reflexivity | exact IH].
Qed.

Lemma getitem_setitem_other (A : Type) (d : list (string * A)) (k k' : string) (v : A) :
  k' <> k -> getitem (setitem d k v) k' = getitem d k'.
Proof.
  intros Hne. induction d as [| [k0 x] d IH]; cbn.
  - apply String.eqb_neq in Hne. now rewrite Hne.
  - destruct (String.eqb k k0) eqn:E; cbn.
    + apply String.eqb_eq in E. subst k0.
      apply String.eqb_neq in Hne. now rewrite Hne.
    + destruct (String.eqb k' k0); [reflexivity | exact IH].
Qed.

Lemma keys_setitem (A : Type) (d : list (string * A)) (k k' : string) (v : A) :
  mem k' (keys (setitem d k v)) = String.eqb k' k || mem k' (keys d).
Proof.
  induction d as [| [k0 x] d IH]; cbn.
  - now rewrite orb_false_r.
  - destruct (String.eqb k k0) eqn:E; cbn.
    + apply String.eqb_eq in E. subst k0.
      now destruct (String.eqb k' k).
    + unfold mem, keys in IH. rewrite IH.
      destruct (String.eqb k' k0), (String.eqb k' k); reflexivity.
Qed.

Lemma find_none_keys (kwargs : list (string * kwval)) (explicit : list (string * kwval)) :
  (forall k, mem k (keys explicit) = true -> mem k (keys kwargs) = false) ->
  find (fun k => mem k (keys explicit)) (keys kwargs) = None.
Proof.
  intros H. destruct (find _ _) as [k |] eqn:E; [| reflexivity].
  apply find_some in E. destruct E as [Hin Hm].
  specialize (H _ Hm). unfold mem in H.
  assert (existsb (String.eqb k) (keys kwargs) = true) as C.
  { apply existsb_exists. exists k. split; [exact Hin | apply String.eqb_refl]. }
  congruence.
Qed.

(** X16: when the caller's keywords hold none of 'integrator', 'nsteps'
    and 'first_step', [integrate_and_plot] calls the integrator, and in the
    keywords of that call 'atol' and 'rtol' have the caller's value when the
    caller gave one and 1e-11 otherwise, while every other keyword of the
    caller is passed on unchanged. *)
Theorem integrate_and_plot_keywords (h0max : R) (c0 : option (list (string * R)))
  (first_step : option R) (t0 : R) (nsteps : Z) (kwargs : list (string * kwval)) :
  (forall k, In k reserved -> mem k (keys kwargs) = false) ->
  exists a,
    integrate_and_plot_call h0max c0 first_step t0 nsteps kwargs = Called a
    /\ (forall k v, In k ["atol"; "rtol"] ->
          getitem kwargs k = Ok v -> getitem (ia_keywords a) k = Ok v)
    /\ (forall k, In k ["atol"; "rtol"] ->
          mem k (keys kwargs) = false -> getitem (ia_keywords a) k = Ok (KFloat 1e-11))
    /\ (forall k, ~ In k ["atol"; "rtol"] -> ~ In k reserved ->
          getitem (ia_keywords a) k = getitem kwargs k).
Proof.
  intros Hres. unfold integrate_and_plot_call, call_keywords.
  rewrite find_none_keys.
  2:{ intros k Hk. rewrite !keys_setitem.
      assert (In k reserved) as Hin.
      { cbn in Hk. unfold reserved. cbn.
        destruct (String.eqb k "integrator") eqn:E1;
          [apply String.eqb_eq in E1; now left |].
        destruct (String.eqb k "nsteps") eqn:E2;
          [apply String.eqb_eq in E2; right; now left |].
        destruct (String.eqb k "first_step") eqn:E3;
          [apply String.eqb_eq in E3; right; right; now left |].
        discriminate. }
      rewrite (Hres _ Hin).
      unfold reserved in Hin. cbn in Hin.
      destruct Hin as [<- | [<- | [<- | []]]]; reflexivity. }
  eexists. split; [reflexivity |]. cbn [ia_keywords].
  assert (forall k (d : list (string * kwval)), ~ In k reserved ->
            getitem ([("integrator", KStr "cvode"); ("nsteps", KInt nsteps);
                      ("first_step",
                        KFloat match first_step with
                               | Some h => h
                               | None => (h0max * 1e-11)%R
                               end)] ++ d) k = getitem d k) as Hskip.
  { intros k d Hk. unfold reserved in Hk. cbn in Hk |- *.
    destruct (String.eqb k "integrator") eqn:E1;
      [apply String.eqb_eq in E1; subst; tauto |].
    destruct (String.eqb k "nsteps") eqn:E2;
      [apply String.eqb_eq in E2; subst; tauto |].
    destruct (String.eqb k "first_step") eqn:E3;
      [apply String.eqb_eq in E3; subst; tauto |].
    reflexivity. }
  split; [| split].
  - intros k v Hin Hv. rewrite Hskip.
    2:{ unfold reserved. cbn in Hin |- *.
        destruct Hin as [<- | [<- | []]]; intros [E | [E | [E | []]]]; discriminate. }
    cbn in Hin. destruct Hin as [<- | [<- | []]].
    + rewrite getitem_setitem_other by discriminate.
      rewrite getitem_setitem_same. unfold dict_get. now rewrite Hv.
    + rewrite getitem_setitem_same. unfold dict_get at 1.
      rewrite getitem_setitem_other by discriminate. now rewrite Hv.
  - intros k Hin Hm. rewrite Hskip.
    2:{ unfold reserved. cbn in Hin |- *.
        destruct Hin as [<- | [<- | []]]; intros [E | [E | [E | []]]]; discriminate. }
    cbn in Hin. destruct Hin as [<- | [<- | []]].
    + rewrite getitem_setitem_other by discriminate.
      rewrite getitem_setitem_same. unfold dict_get.
      now rewrite (getitem_absent _ _ Hm).
    + rewrite getitem_setitem_same. unfold dict_get at 1.
      rewrite getitem_setitem_other by discriminate.
      now rewrite (getitem_absent _ _ Hm).
  - intros k Hk Hr. rewrite Hskip by exact Hr.
    rewrite !getitem_setitem_other; [reflexivity | |];
      intros ->; apply Hk; cbn; tauto.
Qed.

Lemma integrate_and_plot_keywords_witness :
  exists a,
    integrate_and_plot_call 1 None (Some 1e-9%R) 0 18000 [("atol", KFloat 1e-9)] = Called a
    /\ getitem (ia_keywords a) "atol" = Ok (KFloat 1e-9)
    /\ getitem (ia_keywords a) "rtol" = Ok (KFloat 1e-11).
Proof.
  destruct (@integrate_and_plot_keywords 1 None (Some 1e-9%R) 0 18000
              [("atol", KFloat 1e-9)]) as [a [Ha [Hgiven [Hdefault _]]]].
  - intros k Hin. cbn in Hin. destruct Hin as [<- | [<- | [<- | []]]]; reflexivity.
  - exists a. split; [exact Ha |]. split.
    + apply Hgiven; [cbn; tauto | reflexivity].
    + apply Hdefault; [cbn; tauto | reflexivity].
Defined.

(** X17: the integrator cannot be chosen by the caller: a keyword
    'integrator' given to [integrate_and_plot] clashes with the explicit
    [integrator='cvode'] of its call, which raises TypeError. *)
Theorem integrate_and_plot_keyword_clash (h0max : R) (c0 : option (list (string * R)))
  (first_step : option R) (t0 : R) (nsteps : Z) (kwargs : list (string * kwval)) :
  mem "integrator" (keys kwargs) = true ->
  exists k, In k reserved
    /\ integrate_and_plot_call h0max c0 first_step t0 nsteps kwargs = TypeError k.
Proof.
  intros Hm. unfold integrate_and_plot_call, call_keywords.
  destruct (find _ _) as [k |] eqn:E.
  - exists k. split; [| reflexivity].
    apply find_some in E. destruct E as [_ E]. cbn in E. unfold reserved. cbn.
    destruct (String.eqb k "integrator") eqn:E1;
      [apply String.eqb_eq in E1; now left |].
    destruct (String.eqb k "nsteps") eqn:E2;
      [apply String.eqb_eq in E2; right; now left |].
    destruct (String.eqb k "first_step") eqn:E3;
      [apply String.eqb_eq in E3; right; right; now left |].
    discriminate.
  - exfalso.
    assert (mem "integrator"
              (keys (setitem (setitem kwargs "atol" (dict_get kwargs "atol" (KFloat 1e-11)))
                       "rtol"
                       (dict_get (setitem kwargs "atol" (dict_get kwargs "atol" (KFloat 1e-11)))
                          "rtol" (KFloat 1e-11)))) = true) as Hm'.
    { rewrite !keys_setitem. rewrite Hm. reflexivity. }
    unfold mem in Hm'. apply existsb_exists in Hm'. destruct Hm' as [x [Hin Hx]].
    apply String.eqb_eq in Hx. subst x.
    exact (eq_true_false_abs _ eq_refl (find_none _ _ E _ Hin)).
Qed.

Lemma integrate_and_plot_keyword_clash_witness :
  exists k, In k reserved
    /\ integrate_and_plot_call 1 None None 0 9000 [("integrator", KStr "lsoda")] = TypeError k.
Proof.
  apply (@integrate_and_plot_keyword_clash 1 None None 0 9000 [("integrator", KStr "lsoda")]).
  reflexivity.
Defined.

(** ** Floats through their specification *)

Lemma shr_1_nonneg (mrs : shr_record) :
  (0 <= shr_m mrs)%Z -> (0 <= shr_m (shr_1 mrs))%Z.
Proof.
  destruct mrs as [m r s]. cbn. intros Hm.
  destruct m as [| p | p]; [cbn; lia | | lia].
  destruct p; cbn; lia.
Qed.

Lemma iter_pos_invariant (A : Type) (f : A -> A) (I : A -> Prop) :
  (forall x, I x -> I (f x)) -> forall p x, I x -> I (iter_pos f p x).
Proof.
  intros Hf. induction p as [p IH | p IH |]; intros x Hx; cbn.
  - apply IH, IH, Hf, Hx.
  - apply IH, IH, Hx.
  - apply Hf, Hx.
Qed.

Lemma shr_fexp_nonneg (prec emax m e : Z) (l : location) :
  (0 <= m)%Z -> (0 <= shr_m (fst (shr_fexp prec emax m e l)))%Z.
Proof.
  intros Hm. unfold shr_fexp, shr.
  assert (H0 : (0 <= shr_m (shr_record_of_loc m l))%Z).
  { destruct l as [| [| |]]; exact Hm. }
  destruct (_ - e)%Z as [| p | p]; cbn [fst]; try exact H0.
  apply (@iter_pos_invariant _ shr_1 (fun r => (0 <= shr_m r)%Z) shr_1_nonneg). exact H0.
Qed.

Lemma round_nearest_even_nonneg (mx : Z) (lx : location) :
  (0 <= mx)%Z -> (0 <= round_nearest_even mx lx)%Z.
Proof.
  intros Hm. unfold round_nearest_even.
  destruct lx as [| [| |]]; try lia. destruct (Z.even mx); lia.
Qed.

(** Rounding a non-negative mantissa gives a zero, a finite number or an
    infinity of the sign asked for, never a NaN. *)
Lemma binary_round_aux_sign (prec emax : Z) (s : bool) (mx ex : Z) (lx : location) :
  (0 <= mx)%Z -> has_sign s (binary_round_aux prec emax s mx ex lx).
Proof.
  intros Hm. unfold binary_round_aux.
  assert (H1 := shr_fexp_nonneg prec emax ex lx Hm).
  destruct (shr_fexp prec emax mx ex lx) as [mrs' e']. cbn [fst] in H1.
  assert (H2 := shr_fexp_nonneg prec emax e' loc_Exact
                  (round_nearest_even_nonneg (loc_of_shr_record mrs') H1)).
  destruct (shr_fexp prec emax _ e' loc_Exact) as [mrs'' e'']. cbn [fst] in H2.
  destruct (shr_m mrs'') as [| p | p]; [reflexivity | | lia].
  destruct (Z.leb e'' _); reflexivity.
Qed.

(** The quotient of two finite floats has the product of their signs, also
    when it underflows to zero or overflows to an infinity. *)
Lemma SFdiv_finite_sign (prec emax : Z) (sx sy : bool) (mx my : positive) (ex ey : Z) :
  has_sign (xorb sx sy)
    (SFdiv prec emax (S754_finite sx mx ex) (S754_finite sy my ey)).
Proof.
  cbn [SFdiv]. unfold SFdiv_core_binary.
  set (m' := match _ with Zpos _ => _ | Z0 => _ | Zneg _ => _ end).
  assert (Hm' : (0 <= m')%Z).
  { subst m'. destruct (_ - _ - _)%Z; [lia | | lia]. apply Z.shiftl_nonneg. lia. }
  assert (Hq : (0 <= fst (Z.div_eucl m' (Zpos my)))%Z).
  { change (fst (Z.div_eucl m' (Zpos my))) with (m' / Zpos my)%Z.
    apply Z.div_pos; lia. }
  destruct (Z.div_eucl m' (Zpos my)) as [q r]. cbn [fst] in Hq.
  apply binary_round_aux_sign. exact Hq.
Qed.

Lemma SFdiv_opposite_signs (prec emax : Z) (sx sy : bool) (mx my : positive)
  (ex ey : Z) :
  xorb sx sy = true ->
  SFleb (SFdiv prec emax (S754_finite sx mx ex) (S754_finite sy my ey))
        (S754_zero false) = true.
Proof.
  intros Hs. pose proof (SFdiv_finite_sign prec emax sx sy mx my ex ey) as H.
  rewrite Hs in H.
  destruct (SFdiv prec emax (S754_finite sx mx ex) (S754_finite sy my ey))
    as [s | s | | s m e]; cbn in H; subst; try contradiction; reflexivity.
Qed.

Lemma Prim2SF_0 : Prim2SF 0 = S754_zero false.
Proof. reflexivity. Qed.

Lemma Prim2SF_infinity : Prim2SF infinity = S754_infinity false.
Proof. reflexivity. Qed.

Lemma SFcompare_refl (x : spec_float) : x <> S754_nan -> SFcompare x x = Some Eq.
Proof.
  destruct x as [s | s | | s m e]; intros Hx; try reflexivity.
  - now destruct s.
  - contradiction.
  - cbn. rewrite Z.compare_refl, Pos.compare_cont_refl. now destruct s.
Qed.

Lemma is_nan_spec (x : float) :
  is_nan x = match Prim2SF x with S754_nan => true | _ => false end.
Proof.
  unfold is_nan. rewrite eqb_spec. unfold SFeqb.
  destruct (Prim2SF x) eqn:E; try reflexivity;
    rewrite SFcompare_refl by discriminate; reflexivity.
Qed.

Lemma is_infinity_spec (x : float) :
  is_infinity x = match Prim2SF x with S754_infinity _ => true | _ => false end.
Proof.
  unfold is_infinity. rewrite eqb_spec, abs_spec, Prim2SF_infinity.
  destruct (Prim2SF x) as [s | s | | s m e]; reflexivity.
Qed.

Lemma leb_0_spec (x : float) : (x <=? 0)%float = true <-> nonpositive (Prim2SF x).
Proof.
  rewrite leb_spec, Prim2SF_0. unfold SFleb.
  destruct (Prim2SF x) as [s | s | | s m e]; cbn; try destruct s; intuition congruence.
Qed.

Lemma nonpositive_not_nan (x : float) : (x <=? 0)%float = true -> is_nan x = false.
Proof.
  intros H. apply leb_0_spec in H. rewrite is_nan_spec.
  destruct (Prim2SF x); [reflexivity | reflexivity | contradiction | reflexivity].
Qed.

Lemma nonpositive_not_positive (x : float) :
  (x <=? 0)%float = true -> (0 <? x)%float = false.
Proof.
  intros H. apply leb_0_spec in H. rewrite ltb_spec, Prim2SF_0. unfold SFltb.
  destruct (Prim2SF x) as [s | s | | s m e]; cbn in H |- *; subst;
    reflexivity || contradiction.
Qed.

(** [math.log] raises on every float that is zero or negative, the negative
    zero and the negative infinity included, whatever the C library. *)
Lemma math_log_nonpositive (m : Libm) (x : float) :
  (x <=? 0)%float = true -> math_log m x = Raise math_domain_error.
Proof.
  intros H. unfold math_log, m_log.
  rewrite (nonpositive_not_positive H), (nonpositive_not_nan H).
  destruct (is_finite x); [destruct (x =? 0)%float |]; reflexivity.
Qed.

(** For [T <= 0 < Tref] or [Tref < 0 <= T], not both infinite, the divisor
    is not zero and the float [T / Tref] is zero or negative, also when the
    quotient underflows or overflows. *)
Lemma quotient_nonpositive (T Tref : float) :
  nonpositive_quotient T Tref = true ->
  (Tref =? 0)%float = false /\ (T / Tref <=? 0)%float = true.
Proof.
  unfold nonpositive_quotient. rewrite !is_infinity_spec.
  rewrite eqb_spec, !leb_spec, !ltb_spec, div_spec, Prim2SF_0.
  unfold SF64div.
  destruct (Prim2SF T) as [s | s | | s m e], (Prim2SF Tref) as [s' | s' | | s' m' e'];
    try (destruct s); try (destruct s');
    try (rewrite SFdiv_opposite_signs by reflexivity);
    cbn; intros H; try discriminate H; split; reflexivity.
Qed.

(** ** Domain of [_gibbs] on floats *)

Lemma gibbs_float_zero_reference (m : Libm) (H S_ Cp Tref T R : float) :
  (Tref =? 0)%float = true ->
  _gibbs (float_backend m) [H; S_; Cp; Tref] T R = Raise ZeroDivisionError.
Proof.
  intros E. unfold _gibbs, unpack4.
  cbn [bind add sub mul truediv float_backend]. unfold float_truediv.
  rewrite E. reflexivity.
Qed.

Lemma gibbs_float_domain_error (m : Libm) (H S_ Cp Tref T R : float) :
  nonpositive_quotient T Tref = true ->
  _gibbs (float_backend m) [H; S_; Cp; Tref] T R = Raise math_domain_error.
Proof.
  intros E. destruct (quotient_nonpositive T Tref E) as [Hz Hq].
  unfold _gibbs, unpack4.
  cbn [bind add sub mul truediv blog float_backend]. unfold float_truediv.
  rewrite Hz. cbn [bind]. rewrite (math_log_nonpositive m Hq). reflexivity.
Qed.

Lemma gibbs_float_negative_temperatures :
  _gibbs (float_backend libm) [0; 0; 0; -1]%float (-1)%float 8.314472%float
  = Ok 1%float.
Proof. vm_compute. reflexivity. Qed.

Lemma gibbs_float_nan_reference :
  exists K,
    _gibbs (float_backend libm) [0; 0; 0; nan]%float 1%float 1%float = Ok K
    /\ is_nan K = true.
Proof. eexists. split; vm_compute; reflexivity. Qed.

(** C4, amended: [_gibbs] has no check of its own; a call fails only where
    an operation of the backend fails.  On floats, for all H, S, Cp and R
    and every C library: with Tref = 0, of either sign, it raises
    ZeroDivisionError; with T <= 0 < Tref or Tref < 0 <= T, not both
    infinite, so with T = -1 and any positive finite Tref, it raises the
    ValueError (math domain error) of [math.log].  With T and Tref both
    negative the logarithm is defined and a value can be returned: T = Tref
    = -1 with H = S = Cp = 0 and R = 8.314472 gives 1.0.  A NaN is not
    reported: Tref = nan with H = S = Cp = 0 and T = R = 1 gives nan.  On a
    symbolic backend every call returns an expression. *)
Theorem gibbs_nonpositive_temperature_fails (m : Libm) (H S_ Cp Tref T R : float) :
  ((Tref =? 0)%float = true ->
   _gibbs (float_backend m) [H; S_; Cp; Tref] T R = Raise ZeroDivisionError)
  /\ (nonpositive_quotient T Tref = true ->
      _gibbs (float_backend m) [H; S_; Cp; Tref] T R = Raise math_domain_error)
  /\ _gibbs (float_backend libm) [0; 0; 0; -1]%float (-1)%float 8.314472%float
     = Ok 1%float
  /\ (exists K,
        _gibbs (float_backend libm) [0; 0; 0; nan]%float 1%float 1%float = Ok K
        /\ is_nan K = true)
  /\ (forall H' S' Cp' Tref' T' R' : expr,
        exists e, _gibbs sym_backend [H'; S'; Cp'; Tref'] T' R' = Ok e).
Proof.
  split; [apply gibbs_float_zero_reference |].
  split; [apply gibbs_float_domain_error |].
  split; [exact gibbs_float_negative_temperatures |].
  split; [exact gibbs_float_nan_reference |].
  intros H' S' Cp' Tref' T' R'. eexists. reflexivity.
Qed.

Lemma gibbs_nonpositive_temperature_fails_witness :
  _gibbs (float_backend libm) [60e3; 180; 20.5e3; 298.15]%float (-1)%float
    8.314472%float
  = Raise math_domain_error.
Proof.
  apply (@gibbs_nonpositive_temperature_fails libm 60e3 180 20.5e3 298.15 (-1)
           8.314472)%float.
  vm_compute. reflexivity.
Defined.

(** ** The melting temperature on floats *)

Lemma Se0_from_Tm_reals (params : list (string * R)) (Tm : R) (token : string) :
  Se0_from_Tm params Tm token = Se0_from_Tm_in math_backend params Tm token.
Proof. reflexivity. Qed.





(** X9: on floats, with its three parameters present, [Se0_from_Tm] raises
    ZeroDivisionError when Tm is zero, and when Tm is not zero and the
    reference temperature T0 is; and it raises ValueError (math domain
    error) when Tm is not zero and Tm <= 0 < T0 or T0 < 0 <= Tm, not both
    infinite.  This holds for every C library. *)
Theorem Se0_from_Tm_float_failures (m : Libm) (params : list (string * float))
  (token : string) (H Cp T0 Tm : float) :
  getitem params ("He_" ++ token) = Ok H ->
  getitem params ("Tref_" ++ token) = Ok T0 ->
  getitem params ("Cp_" ++ token) = Ok Cp ->
  let r := Se0_from_Tm_in (float_backend m) params Tm token in
  ((Tm =? 0)%float = true -> r = Raise ZeroDivisionError)
  /\ ((Tm =? 0)%float = false -> (T0 =? 0)%float = true -> r = Raise ZeroDivisionError)
  /\ ((Tm =? 0)%float = false -> nonpositive_quotient Tm T0 = true ->
      r = Raise math_domain_error).
Proof.
  intros HH HT HC. cbv zeta. unfold Se0_from_Tm_in.
  cbn [num add sub mul truediv blog float_backend].
  rewrite HH, HT, HC. cbn [bind]. unfold float_truediv. split; [| split].
  - intros E. rewrite E. reflexivity.
  - intros E E0. rewrite E. cbn [bind]. rewrite E0. reflexivity.
  - intros E Hq. rewrite E. cbn [bind].
    destruct (quotient_nonpositive Tm T0 Hq) as [Hz Hl].
    rewrite Hz. cbn [bind]. rewrite (math_log_nonpositive m Hl). reflexivity.
Qed.

Lemma Se0_from_Tm_float_failures_witness :
  Se0_from_Tm_in (float_backend libm) float_params (-1)%float "u"
  = Raise math_domain_error.
Proof.
  assert (HH : getitem float_params "He_u" = Ok 60e3%float) by reflexivity.
  assert (HT : getitem float_params "Tref_u" = Ok 298.15%float) by reflexivity.
  assert (HC : getitem float_params "Cp_u" = Ok 20.5e3%float) by reflexivity.
  destruct (@Se0_from_Tm_float_failures libm float_params "u" _ _ _ (-1)%float HH HT HC)
    as [_ [_ Hd]].
  apply Hd; vm_compute; reflexivity.
Defined.

(** ** The two rate laws as real functions *)


(** ** The callback as a closure: what a call does to the heap *)

Lemma set_nth_length (A : Type) (n : nat) (v : A) (l : list A) :
  List.length (set_nth n v l) = List.length l.
Proof.
  revert n. induction l as [| x l IH]; intros n; [reflexivity |].
  destruct n; cbn; [reflexivity | now rewrite IH].
Qed.

Lemma set_nth_same (A : Type) (n : nat) (v d : A) (l : list A) :
  (n < List.length l)%nat -> nth n (set_nth n v l) d = v.
Proof.
  revert n. induction l as [| x l IH]; intros n Hn; cbn in Hn; [lia |].
  destruct n; cbn; [reflexivity | apply IH; lia].
Qed.

Lemma set_nth_other (A : Type) (n q : nat) (v d : A) (l : list A) :
  q <> n -> nth q (set_nth n v l) d = nth q l d.
Proof.
  revert n q. induction l as [| x l IH]; intros n q Hq; [reflexivity |].
  destruct n, q; cbn; try reflexivity; [contradiction | apply IH; lia].
Qed.

Lemma frame_refl (w : loc) (h : heap) : frame w h h.
Proof. split; [reflexivity | reflexivity]. Qed.

Lemma frame_trans (w : loc) (h1 h2 h3 : heap) :
  frame w h1 h2 -> frame w h2 h3 -> frame w h1 h3.
Proof.
  intros [L1 F1] [L2 F2]. split; [congruence |].
  intros q Hq. rewrite (F2 q Hq). apply F1, Hq.
Qed.

Lemma choose_key_spec (w : loc) (entries : list (nat * string * Q))
  (h : heap) (l : list string) :
  holds h w l ->
  exists h',
    choose_key (Some w) entries h = (Ok (fst (choose_pure l entries)), h')
    /\ holds h' w (snd (choose_pure l entries)) /\ frame w h h'.
Proof.
  intros [Hw Hl]. induction entries as [| [[idx key] c] entries IH]; cbn.
  - exists h. repeat split; try assumption; reflexivity.
  - destruct (is_zero c); [exact IH |].
    unfold hbind, list_contains, list_remove, read_list, ret, write_list.
    cbn. rewrite Hl. destruct (mem key l) eqn:E.
    + cbn. rewrite Hl, E. cbn.
      exists (set_nth w (remove_first key l) h). split; [reflexivity |]. split.
      * split; [now rewrite set_nth_length | now apply set_nth_same].
      * split; [apply set_nth_length |]. intros q Hq. now apply set_nth_other.
    + exact IH.
Qed.

Lemma solve_rows_spec (w : loc) (names : list string) (rows : list (Qrow * nat))
  (deps : list (string * (nat * Qrow))) (h : heap) (l : list string) :
  holds h w l ->
  exists h',
    solve_rows (Some w) names rows deps h = (Ok (fst (solve_pure l names rows deps)), h')
    /\ holds h' w (snd (solve_pure l names rows deps)) /\ frame w h h'.
Proof.
  revert deps h l. induction rows as [| [row ci] rows IH]; intros deps h l Hh.
  - exists h. repeat split; try apply Hh; reflexivity.
  - cbn [solve_rows solve_pure]. unfold hbind at 1.
    destruct (choose_key_spec
                (skipn ci (combine (combine (seq 0 (List.length names)) names) row)) Hh)
      as [h1 [E1 [H1 F1]]].
    rewrite E1.
    destruct (choose_pure l _) as [[[idx key] |] l1]; cbn [fst snd] in *.
    + destruct (IH (setitem deps key (idx, row_scale (/ coeff idx row) row)) h1 l1 H1)
        as [h2 [E2 [H2 F2]]].
      exists h2. split; [exact E2 |]. split; [exact H2 |].
      exact (frame_trans F1 F2).
    + destruct (IH deps h1 l1 H1) as [h2 [E2 [H2 F2]]].
      exists h2. split; [exact E2 |]. split; [exact H2 |].
      exact (frame_trans F1 F2).
Qed.

Lemma closure_call_spec (cl : Closure) (p : loc) (init : string -> expr) (h : heap) :
  cl_preferred cl = Some p -> (p < List.length h)%nat ->
  exists h',
    closure_call cl init h = (derived (cl_rsys cl) (nth p h []) init, h')
    /\ (p < List.length h')%nat /\ nth p h' [] = nth p h []
    /\ (forall first, derived (cl_rsys cl) (nth p h []) init = Ok first ->
                      nth (List.length h) h' [] = []).
Proof.
  intros Hp Hlt. unfold closure_call, derived. rewrite Hp.
  unfold hbind at 1. unfold hbind at 1. unfold list_copy, hbind at 1.
  unfold read_list, new_list, ret.
  destruct (rref _ _) as [rA pivots].
  set (w := List.length h). set (h0 := h ++ [nth p h []]).
  assert (Hh0 : holds h0 w (nth p h [])).
  { split; [subst h0 w; rewrite length_app; cbn; lia |].
    subst h0 w. apply nth_middle. }
  unfold hbind at 1.
  destruct (solve_rows_spec (substance_names (cl_rsys cl)) (combine rA pivots) [] Hh0)
    as [h1 [E1 [[Hw1 Hl1] [Flen F1]]]].
  rewrite E1.
  destruct (solve_pure (nth p h []) _ _ _) as [deps left]. cbn [fst snd] in *.
  unfold list_len, read_list, ret, raise, hbind. cbv beta iota. rewrite Hl1.
  assert (Hpw : p <> w) by (subst w; lia).
  assert (Hkeep : nth p h1 [] = nth p h []).
  { rewrite (F1 p Hpw). subst h0. now apply app_nth1. }
  assert (Hlen : (p < List.length h1)%nat).
  { rewrite Flen. subst h0. rewrite length_app. cbn. lia. }
  exists h1. split; [| split; [assumption | split; [assumption |]]].
  - destruct (0 <? List.length left)%nat; reflexivity.
  - intros first. destruct left as [| x left]; [intros _; exact Hl1 | discriminate].
Qed.

Lemma mem_In (x : string) (l : list string) : mem x l = true <-> In x l.
Proof.
  unfold mem. rewrite existsb_exists. split.
  - intros [y [Hy E]]. apply String.eqb_eq in E. now subst y.
  - intros H. exists x. split; [exact H | apply String.eqb_refl].
Qed.

Lemma remove_first_keeps (key x : string) (l : list string) :
  In x l -> x = key \/ In x (remove_first key l).
Proof.
  induction l as [| y l IH]; cbn; [tauto |].
  destruct (String.eqb key y) eqn:E.
  - apply String.eqb_eq in E. subst y. intros [-> | H]; [now left | now right].
  - intros [-> | H]; [right; now left |].
    destruct (IH H) as [-> | H']; [now left | right; now right].
Qed.

Lemma choose_pure_inv (l : list string) (entries : list (nat * string * Q)) :
  match choose_pure l entries with
  | (Some (_, key), l') => In key l /\ l' = remove_first key l
  | (None, l') => l' = l
  end.
Proof.
  induction entries as [| [[idx key] c] entries IH]; cbn; [reflexivity |].
  destruct (is_zero c); [exact IH |].
  destruct (mem key l) eqn:E; [| exact IH].
  split; [now apply mem_In | reflexivity].
Qed.

Lemma In_keys_setitem (A : Type) (d : list (string * A)) (k k' : string) (v : A) :
  In k' (keys (setitem d k v)) <-> k' = k \/ In k' (keys d).
Proof.
  rewrite <- !mem_In, keys_setitem, orb_true_iff, String.eqb_eq. reflexivity.
Qed.

Lemma solve_pure_keys (names : list string) (rows : list (Qrow * nat))
  (l : list string) (deps : list (string * (nat * Qrow))) :
  let (deps', l') := solve_pure l names rows deps in
  (forall k, In k (keys deps') -> In k (keys deps) \/ In k l)
  /\ (forall x, In x l -> In x l' \/ In x (keys deps'))
  /\ (forall k, In k (keys deps) -> In k (keys deps')).
Proof.
  revert l deps. induction rows as [| [row ci] rows IH]; intros l deps.
  - cbn. repeat split; tauto.
  - cbn [solve_pure].
    pose proof (choose_pure_inv l
                  (skipn ci (combine (combine (seq 0 (List.length names)) names) row)))
      as Hc.
    destruct (choose_pure l _) as [[[idx key] |] l1].
    + destruct Hc as [Hin ->].
      specialize (IH (remove_first key l)
                     (setitem deps key (idx, row_scale (/ coeff idx row) row))).
      destruct (solve_pure _ names rows _) as [deps' l'].
      destruct IH as [IA [IB IC]]. split; [| split].
      * intros k Hk. destruct (IA k Hk) as [H | H].
        -- apply In_keys_setitem in H. destruct H as [-> | H]; [now right | now left].
        -- right. clear - H. induction l as [| y l IHl]; cbn in H; [contradiction |].
           destruct (String.eqb key y); [now right |].
           destruct H as [-> | H]; [now left | right; now apply IHl].
      * intros x Hx. destruct (remove_first_keeps key x l Hx) as [-> | H].
        -- right. apply IC, In_keys_setitem. now left.
        -- now apply IB.
      * intros k Hk. apply IC, In_keys_setitem. now right.
    + subst l1. apply IH.
Qed.

Lemma keys_analytic_factory (names : list string) (deps : list (string * nat * Qrow))
  (init : string -> expr) :
  keys (analytic_factory names deps init) = map (fun d => fst (fst d)) deps.
Proof.
  unfold analytic_factory, keys. rewrite map_map.
  apply map_ext. intros [[name j] row]. reflexivity.
Qed.

Lemma keys_setitem_present (d : list (string * expr)) (k : string) (e v : expr) :
  lookup_expr d k = Some e -> keys (setitem d k v) = keys d.
Proof.
  induction d as [| [k0 x] d IH]; cbn; [discriminate |].
  destruct (String.eqb k k0); [reflexivity |].
  intros H. cbn. unfold keys in IH. now rewrite IH.
Qed.

Lemma keys_back_substitute (exprs : list (string * expr)) :
  keys (back_substitute exprs) = keys exprs.
Proof.
  unfold back_substitute. generalize (rev (keys exprs)) as ks.
  intros ks. revert exprs. induction ks as [| k ks IH]; intros exprs; [reflexivity |].
  cbn [fold_left]. rewrite IH.
  destruct (lookup_expr exprs k) as [e |] eqn:E; [| reflexivity].
  eapply keys_setitem_present. exact E.
Qed.

Lemma keys_render (names : list string) (deps : list (string * (nat * Qrow)))
  (init : string -> expr) :
  keys (render names deps init) = keys deps.
Proof.
  unfold render. rewrite keys_back_substitute, keys_analytic_factory, map_map.
  reflexivity.
Qed.

Lemma derived_keys (rs : ReactionSystem.t) (preferred : list string)
  (init : string -> expr) (first : list (string * expr)) :
  derived rs preferred init = Ok first ->
  forall k, In k (keys first) <-> In k preferred.
Proof.
  unfold derived. destruct (rref _ _) as [rA pivots].
  pose proof (solve_pure_keys (substance_names rs) (combine rA pivots) preferred [])
    as Hs.
  destruct (solve_pure preferred _ _ _) as [deps left].
  destruct Hs as [HA [HB _]].
  destruct left as [| x left]; [| discriminate].
  cbn. intros E. injection E as <-. intros k. rewrite keys_render. split.
  - intros Hk. destruct (HA k Hk) as [[] | H]. exact H.
  - intros Hk. destruct (HB k Hk) as [[] | H]. exact H.
Qed.

(** C9: the derivation is idempotent.  The callback holds the list of the
    species to eliminate; when a call of it returns, the list it holds is
    what it was before, while the copy the call worked on is used up (the
    call removes every species it solves for from it); a second call on the
    heap that the first one left returns the same expressions, their keys
    are the species of the list, and there is at least one when the list is
    not empty. *)
Theorem derivation_idempotent (cl : Closure) (p : loc) (init : string -> expr)
  (h h1 : heap) (first : list (string * expr)) :
  cl_preferred cl = Some p -> (p < List.length h)%nat -> nth p h [] <> [] ->
  closure_call cl init h = (Ok first, h1) ->
  nth p h1 [] = nth p h []
  /\ nth (List.length h) h1 [] = []
  /\ (exists h2, closure_call cl init h1 = (Ok first, h2)
                 /\ nth p h2 [] = nth p h [])
  /\ first <> []
  /\ (forall k, In k (keys first) <-> In k (nth p h [])).
Proof.
  intros Hp Hlt Hne Hcall.
  destruct (@closure_call_spec cl p init h Hp Hlt) as [h' [E1 [Hlt1 [Hkeep1 Hused]]]].
  rewrite E1 in Hcall. injection Hcall as Hd <-.
  destruct (@closure_call_spec cl p init h' Hp Hlt1) as [h2 [E2 [_ [Hkeep2 _]]]].
  rewrite Hkeep1, Hd in E2.
  pose proof (@derived_keys _ _ _ _ Hd) as Hk.
  split; [exact Hkeep1 |]. split; [exact (Hused _ Hd) |]. split; [| split].
  - exists h2. split; [exact E2 | congruence].
  - intros ->. destruct (nth p h []) as [| x l]; [now apply Hne |].
    apply (Hk x). now left.
  - exact Hk.
Qed.

Lemma derivation_idempotent_witness :
  let cl := {| cl_rsys := rsys; cl_preferred := Some O |} in
  exists first h1,
    closure_call cl y0 [["L"; "N"]] = (Ok first, h1)
    /\ keys first = ["N"; "L"]
    /\ nth 0 h1 [] = ["L"; "N"]
    /\ exists h2, closure_call cl y0 h1 = (Ok first, h2).
Proof.
  cbv zeta. eexists. eexists.
  assert (E : closure_call {| cl_rsys := rsys; cl_preferred := Some O |} y0 [["L"; "N"]]
              = (Ok _, _)) by (vm_compute; reflexivity).
  split; [exact E |]. split; [reflexivity |].
  destruct (@derivation_idempotent {| cl_rsys := rsys; cl_preferred := Some O |}
              O y0 [["L"; "N"]] _ _ eq_refl
              (Nat.lt_0_succ 0) ltac:(discriminate) E) as [K [_ [[h2 [E2 _]] _]]].
  split; [exact K |]. exists h2. exact E2.
Defined.

(** On the notebook's network the closure gives the expressions of the
    derivation that the reduced systems are built from, in the order of the
    rows of the echelon form. *)
Lemma closure_agrees_with_derivation :
  (exists first h1,
     closure_call {| cl_rsys := rsys; cl_preferred := Some O |} y0 [["L"; "N"]]
     = (Ok first, h1)
     /\ Permutation first (call analytic_L_N_callback y0))
  /\ (exists first h1,
        closure_call {| cl_rsys := rsys; cl_preferred := Some O |} y0 [["L"; "A"]]
        = (Ok first, h1)
        /\ Permutation first (call analytic_L_A_callback y0)).
Proof.
  split; eexists; eexists; (split; [vm_compute; reflexivity |]);
    vm_compute; apply perm_swap.
Qed.
